(** * The multi-stage retrieval pipeline of the 10-K analyst

    A shallow embedding of [core/rag_pipeline.py] (class
    [AdvancedRAGPipeline]), of [agents/sec_researcher.py], of
    [execute_plan] of [agents/orchestrator.py] and of the chat loop of
    [main_v1.py], with the properties the specification states about
    them and further properties of the code.

    Conventions of the embedding:
    - relevance scores are Python floats in the source; only their order
      and equality matter here, so they are rationals ([Q]) and NaN is
      left out;
    - a Python [str] is a [string] holding its UTF-8 encoding;
    - a Python exception is a value of [exn], and a function that can
      raise returns a [result];
    - the external capabilities (vector store, BM25 index, cross-encoder)
      are the fields of the pipeline object: deterministic functions;
    - [rerank] assigns to [result.score] in place, so it is modelled over
      an object store, with candidates as references into it. *)

From Stdlib Require Import Ascii String QArith.
From stdpp Require Import gmap strings list fin_maps sorting.

Local Open Scope string_scope.

(** ** Exceptions and results *)

Inductive exn : Type :=
  | NameError (name : string)
  | IndexError.

Inductive result (A : Type) : Type :=
  | Ok (a : A)
  | Raise (e : exn).

Arguments Ok {A} a.
Arguments Raise {A} e.

Global Instance result_ret : MRet result := @Ok.

Global Instance result_bind : MBind result := λ A B k c,
  match c with
  | Ok a => k a
  | Raise e => Raise e
  end.

(** [[f(x) for x in l]] where [f] may raise: the first exception wins. *)
Fixpoint traverse {A B} (f : A → result B) (l : list A) : result (list B) :=
  match l with
  | [] => Ok []
  | x :: l' => y ← f x; ys ← traverse f l'; Ok (y :: ys)
  end.

(** ** Data model *)

Global Instance Q_inhabited : Inhabited Q := populate 0%Q.

(** A passage of the corpus, as the vector store and [self.documents]
    hold it: the pipeline reads [doc.content] and forwards the metadata. *)
Record Document : Type := {
  doc_content : string;
  doc_metadata : gmap string string
}.

(** [@dataclass RetrievalResult]. *)
Record RetrievalResult : Type := {
  content : string;
  metadata : gmap string string;
  score : Q;
  source : string
}.

Global Instance RetrievalResult_inhabited : Inhabited RetrievalResult :=
  populate {| content := ""; metadata := ∅; score := 0; source := "" |}.

(** [result.score = s]: the other three fields stay. *)
Definition set_score (s : Q) (r : RetrievalResult) : RetrievalResult :=
  {| content := content r; metadata := metadata r;
     score := s; source := source r |}.

(** ** [sorted(l, key=..., reverse=True)]

    Python's sort is stable also with [reverse=True]: elements with
    equal keys keep their input order. [insert_desc x l] puts [x], which
    precedes all of [l] in the input, after the strictly greater keys
    and before everything else. *)

Definition Qlt_bool (a b : Q) : bool := negb (Qle_bool b a).

Section Sorted.
Context {A : Type} (key : A → Q).

Fixpoint insert_desc (x : A) (l : list A) : list A :=
  match l with
  | [] => [x]
  | y :: l' =>
      if Qlt_bool (key x) (key y) then y :: insert_desc x l' else x :: l
  end.

Definition sorted_reverse (l : list A) : list A := foldr insert_desc [] l.

(** non-increasing by key *)
Definition key_ge (a b : A) : Prop := (key b <= key a)%Q.

(** Stability: the elements of any one key value come out in the
    order they went in. *)
Definition tied (s : Q) (x : A) : bool := Qeq_bool (key x) s.

(** higher key first and, among equal keys, as [sec] orders them *)
Definition key_then (sec : A → A → Prop) (a b : A) : Prop :=
  (key b < key a)%Q ∨ ((key b == key a)%Q ∧ sec a b).
End Sorted.

(** ** Python and numpy primitives *)

(** [str.split()] with no argument: maximal runs of non-whitespace
    characters. A Python [str] is a sequence of code points; a [string]
    here is its UTF-8 encoding, so a whitespace character is one, two
    or three bytes long. The whitespace of [str.split()] is the set of
    [str.isspace()]: U+0009..U+000D, U+001C..U+001F, U+0020 (one byte,
    [is_space]); U+0085, U+00A0 (two bytes, [is_space2]); U+1680,
    U+2000..U+200A, U+2028, U+2029, U+202F, U+205F, U+3000 (three
    bytes, [is_space3]). *)
Definition is_space (a : ascii) : bool :=
  let n := nat_of_ascii a in
  ((n =? 32) || ((9 <=? n) && (n <=? 13)) || ((28 <=? n) && (n <=? 31)))%nat.

Definition is_space2 (a b : ascii) : bool :=
  let m := nat_of_ascii a in
  let n := nat_of_ascii b in
  ((m =? 194) && ((n =? 133) || (n =? 160)))%nat.

Definition is_space3 (a b c : ascii) : bool :=
  let l := nat_of_ascii a in
  let m := nat_of_ascii b in
  let n := nat_of_ascii c in
  (((l =? 225) && (m =? 154) && (n =? 128))
   || ((l =? 226) && (m =? 128)
       && (((128 <=? n) && (n <=? 138))
           || (n =? 168) || (n =? 169) || (n =? 175)))
   || ((l =? 226) && (m =? 129) && (n =? 159))
   || ((l =? 227) && (m =? 128) && (n =? 128)))%nat.

(** A continuation byte of UTF-8 ([10xxxxxx]): every byte of an encoded
    character but its first. *)
Definition continuation (a : ascii) : bool :=
  let n := nat_of_ascii a in
  ((128 <=? n) && (n <=? 191))%nat.

(** The number of bytes of the whitespace character [s] starts with,
    0 when it starts with none. *)
Definition space_len (s : string) : nat :=
  match s with
  | String a s1 =>
      if is_space a then 1
      else
        match s1 with
        | String b s2 =>
            if is_space2 a b then 2
            else
              match s2 with
              | String c _ => if is_space3 a b c then 3 else 0
              | EmptyString => 0
              end
        | EmptyString => 0
        end
  | EmptyString => 0
  end.

(** One whitespace character, encoded. *)
Definition whitespace_char (sp : string) : bool :=
  match sp with
  | String a EmptyString => is_space a
  | String a (String b EmptyString) => is_space2 a b
  | String a (String b (String c EmptyString)) => is_space3 a b c
  | _ => false
  end.

(** The word read so far becomes a token, unless it is empty. *)
Definition flush (word : string) : list string :=
  if String.eqb word "" then [] else [word].

Fixpoint split_from (word : string) (s : string) : list string :=
  match s with
  | EmptyString => flush word
  | String a s1 =>
      if is_space a then (flush word ++ split_from "" s1)%list
      else
        match s1 with
        | String b s2 =>
            if is_space2 a b then (flush word ++ split_from "" s2)%list
            else
              match s2 with
              | String c s3 =>
                  if is_space3 a b c
                  then (flush word ++ split_from "" s3)%list
                  else split_from (word ++ String a "") s1
              | EmptyString => split_from (word ++ String a "") s1
              end
        | EmptyString => split_from (word ++ String a "") s1
        end
  end.

Definition split (s : string) : list string := split_from "" s.

(** [s[n:]] *)
Fixpoint string_drop (n : nat) (s : string) : string :=
  match n, s with
  | S n', String _ s' => string_drop n' s'
  | _, _ => s
  end.

(** [iter(s)] for a [str]: its characters, each a string of its own (a
    byte with the continuation bytes that follow it). *)
Fixpoint chars (s : string) : list string :=
  match s with
  | EmptyString => []
  | String a s' =>
      let rest := chars s' in
      match s' with
      | String b _ =>
          if continuation b
          then match rest with
               | c :: cs => String a c :: cs
               | [] => [String a ""]
               end
          else String a "" :: rest
      | EmptyString => [String a ""]
      end
  end.

(** [l[-k:]] for [k >= 0]: the last [k] elements, all of them when
    [l] is shorter, and (Python's [-0 == 0]) the whole of [l] for
    [k = 0]. *)
Definition slice_last {A} (k : nat) (l : list A) : list A :=
  match k with
  | 0 => l
  | _ => drop (length l - k) l
  end.

(** [np.argsort(a)]: the indices of [a] by ascending value. numpy's
    default sort kind leaves the order of equal values open; [argsort]
    is the stable order (equal values by ascending index), which is
    what [kind='stable'] gives: one of the functions numpy's promise
    allows ([ascending_argsort] below). What is stated of the order of
    equal scores is stated over every such function, with the methods
    of [MethodsOverArgsort]. An ascending stable sort is a descending
    stable sort on the negated key. *)
Definition argsort (a : list Q) : list nat :=
  sorted_reverse (λ i, - (a !!! i))%Q (seq 0 (length a)).

(** The order of the sparse candidates over the scores [a]: [i] may
    precede [j] when its score is higher or, the scores being equal,
    its corpus index is the larger one. *)
Definition score_then_later (a : list Q) (i j : nat) : Prop :=
  (a !!! j < a !!! i)%Q ∨ ((a !!! j == a !!! i)%Q ∧ j < i).

(** The tie-breaking rule of the specification (section 4.3, step 2):
    of two listed candidates with equal scores, the one with the smaller
    corpus index comes first. *)
Definition ties_in_corpus_order (a : list Q) (l : list nat) : Prop :=
  ∀ p q i j, l !! p = Some i → l !! q = Some j → p < q →
    (a !!! i == a !!! j)%Q → i < j.

(** What numpy promises of [np.argsort(a)] whatever the sort kind: the
    indices of [a], each once, by ascending value. Line 54 passes no
    [kind], and the default kind is not stable: the order of the
    indices of equal values is left to the implementation. *)
Definition ascending_argsort (np_argsort : list Q → list nat) : Prop :=
  ∀ a, np_argsort a ≡ₚ seq 0 (length a)
       ∧ StronglySorted (λ i j, (a !!! i <= a !!! j)%Q) (np_argsort a).

(** A second argsort within that promise: the indices of equal values
    by descending index, the reverse of what [argsort] does. *)
Definition argsort_ties_descending (a : list Q) : list nat :=
  sorted_reverse (λ i, - (a !!! i))%Q (reverse (seq 0 (length a))).

(** [np.argsort(a)[-k:][::-1]], lines 54-55, over any argsort. *)
Definition top_k_indices (np_argsort : list Q → list nat) (a : list Q)
    (k : nat) : list nat :=
  reverse (slice_last k (np_argsort a)).

(** The score of [i] is the score of no other index of [a]. *)
Definition untied (a : list Q) (i : nat) : Prop :=
  ∀ j, j < length a → (a !!! j == a !!! i)%Q → j = i.

Definition untied_bool (a : list Q) (i : nat) : bool :=
  forallb (λ j, (j =? i)%nat || negb (Qeq_bool (a !!! j) (a !!! i)))
    (seq 0 (length a)).

(** ** Insertion-ordered dictionaries keyed by passage identity

    Both deduplication steps of the pipeline keep one entry per passage
    identity, in the order the identities are first seen (the order of a
    Python [dict]); [combine old new] decides what the entry becomes when
    the identity comes up again. *)
Section Upsert.
Context {Key : Type} `{EqDecision Key} {A : Type}.
Variable key : A → Key.
Variable combine : A → A → A.

Fixpoint upsert (r : A) (acc : list A) : list A :=
  match acc with
  | [] => [r]
  | a :: acc' =>
      if decide (key a = key r) then combine a r :: acc'
      else a :: upsert r acc'
  end.

Definition collect_into (acc : list A) (l : list A) : list A :=
  foldl (λ acc r, upsert r acc) acc l.

Definition collect (l : list A) : list A := collect_into [] l.
End Upsert.

(** ** Citations ([core/citations.py] is not part of the sources) *)

(** Modelled from the spec: the [Citation] record of [core/citations.py],
    with the fields of section 3 of the specification under the names
    the constructor call in [analyze_risks] uses; [section] and [url]
    are nullable ([None] is Python's [None]). *)
Record Citation : Type := {
  source_type : string;
  ticker : string;
  year : string;
  section : option string;
  url : option string
}.

(** One element of the [risks] list of [analyze_risks]. *)
Record Risk : Type := {
  risk : string;
  citation : Citation
}.

(** ** The pipeline *)

(** The attributes [__init__] sets on [self], each external capability
    as the deterministic function the pipeline calls:
    [self.vector_store.similarity_search(query, k=k)], [self.documents],
    [self.bm25.get_scores(tokenized_query)] (one score per document) and
    [self.reranker.predict(pairs)] (one score per pair). *)
Record AdvancedRAGPipeline : Type := {
  vector_store : string → nat → list Document;
  documents : list Document;
  bm25 : list string → list Q;
  reranker : list (string * string) → list Q
}.

Section Methods.
(** Passage identity: any key computed from a passage's content and
    metadata (the specification: content and locator, or an equivalent
    identity key). *)
Context {Key : Type} `{EqDecision Key}.
Variable passage_key : string → gmap string string → Key.

Variable self : AdvancedRAGPipeline.

Definition result_key (r : RetrievalResult) : Key :=
  passage_key (content r) (metadata r).

Definition doc_key (d : Document) : Key :=
  passage_key (doc_content d) (doc_metadata d).

(** *** decompose_query

    The prompt is built and dropped; no call is made and
    [sub_queries] is never assigned, so the [return] raises
    [NameError] on every input. (The prompt's closing lines, the JSON
    example, are left out of the string.) *)
Definition decompose_query (query : string) : result (list string) :=
  let prompt :=
    "Break this query into 2-3 focused sub-queries: Query: " ++ query in
  Raise (NameError "sub_queries").

(** *** hybrid_search *)

(** Lines 52-55: the sparse candidates. *)
Definition sparse_indices (query : string) (k : nat) : list nat :=
  let tokenized_query := split query in
  let bm25_scores := bm25 self tokenized_query in
  reverse (slice_last k (argsort bm25_scores)).

Definition sparse_search (query : string) (k : nat) : result (list Document) :=
  traverse (λ i, match documents self !! i with
                 | Some d => Ok d
                 | None => Raise IndexError
                 end) (sparse_indices query k).

Definition tag (kind : string) (d : Document) : RetrievalResult :=
  {| content := doc_content d; metadata := doc_metadata d;
     score := 0; source := kind |}.

Definition set_source (kind : string) (r : RetrievalResult) : RetrievalResult :=
  {| content := content r; metadata := metadata r;
     score := score r; source := kind |}.

(** An identity seen again from the other list becomes [hybrid]; the
    copy seen first (the dense one) is the one kept. *)
Definition merge_entry (old new : RetrievalResult) : RetrievalResult :=
  if decide (source old = source new) then old else set_source "hybrid" old.

(** Modelled from the spec: [_merge_results], which [hybrid_search]
    calls and the class does not define. Section 4.3, step 3:
    concatenate both candidate lists, each tagged with its source kind;
    deduplicate on passage identity, a passage of both lists kept as
    one entry tagged [hybrid] (the dense-sourced copy). No score is
    computed at this stage: the field is 0 until [rerank] sets it. *)
Definition _merge_results (dense_results sparse_results : list Document)
    : list RetrievalResult :=
  collect result_key merge_entry
    ((tag "dense" <$> dense_results) ++ (tag "sparse" <$> sparse_results)).

(** The tag an entry must carry once the sparse candidates with the
    identities [seen] have been taken in, [dk] being the identities of
    the dense candidates. *)
Definition tagged (dk seen : list Key) (a : RetrievalResult) : Prop :=
  (source a = "dense" ∧ result_key a ∈ dk ∧ (result_key a ∉ seen))
  ∨ (source a = "hybrid" ∧ result_key a ∈ dk ∧ result_key a ∈ seen)
  ∨ (source a = "sparse" ∧ (result_key a ∉ dk) ∧ result_key a ∈ seen).

Definition merging (dk seen : list Key) (acc : list RetrievalResult) : Prop :=
  NoDup (result_key <$> acc)
  ∧ (∀ κ, κ ∈ dk → κ ∈ result_key <$> acc)
  ∧ Forall (tagged dk seen) acc.

Definition hybrid_search (query : string) (k : nat)
    : result (list RetrievalResult) :=
  let dense_results := vector_store self query k in
  sparse_results ← sparse_search query k;
  let combined := _merge_results dense_results sparse_results in
  Ok combined.

(** *** rerank

    [h] is the object store and [results] the list of references the
    caller passes; the loop writes the scores into the store, and the
    sort reads them back. *)
Definition assign_scores (results : list nat) (scores : list Q)
    (h : list RetrievalResult) : list RetrievalResult :=
  foldl (λ h rs, alter (set_score rs.2) rs.1 h) h (zip results scores).

Definition rerank_pairs (h : list RetrievalResult) (query : string)
    (results : list nat) : list (string * string) :=
  (λ r, (query, content (h !!! r))) <$> results.

Definition rerank (h : list RetrievalResult) (query : string)
    (results : list nat) : list RetrievalResult * list nat :=
  let pairs := rerank_pairs h query results in
  let scores := reranker self pairs in
  let h' := assign_scores results scores h in
  (h', sorted_reverse (λ x, score (h' !!! x)) results).

(** [rerank] on a list of objects nobody else holds (the results
    [_merge_results] has just built): the list is its own store. *)
Definition rerank_list (query : string) (results : list RetrievalResult)
    : list RetrievalResult :=
  let '(h', out) := rerank results query (seq 0 (length results)) in
  (λ x, h' !!! x) <$> out.

(** *** compare_across_years *)

Definition filtered_query (query year : string) : string :=
  query ++ " (year: " ++ year ++ ")".

Fixpoint compare_loop (query : string) (years : list string)
    (results_by_year : gmap string (list RetrievalResult))
    : result (gmap string (list RetrievalResult)) :=
  match years with
  | [] => Ok results_by_year
  | year :: years' =>
      results ← hybrid_search (filtered_query query year) 5;
      compare_loop query years' (<[year := results]> results_by_year)
  end.

Definition compare_across_years (query : string) (years : list string)
    : result (gmap string (list RetrievalResult)) :=
  compare_loop query years ∅.

(** *** retrieve *)

Definition best_entry (old new : RetrievalResult) : RetrievalResult :=
  if Qlt_bool (score old) (score new) then new else old.

(** Modelled from the spec: [_deduplicate], which [retrieve] calls and
    the class does not define. Sections 4.6 and 9: deduplicate on
    passage identity with a mapping from key to the best-scoring result
    seen so far; of two occurrences of a passage the one with the higher
    re-rank score is kept. *)
Definition _deduplicate (all_results : list RetrievalResult)
    : list RetrievalResult :=
  collect result_key best_entry all_results.

(** [x] is represented by [a]: same passage, and a score at least as
    high. *)
Definition covered (x a : RetrievalResult) : Prop :=
  result_key a = result_key x ∧ (score x <= score a)%Q.

(** The [for sq in sub_queries] loop, lines 89-97. *)
Fixpoint retrieve_loop (sub_queries : list string)
    (all_results : list RetrievalResult) : result (list RetrievalResult) :=
  match sub_queries with
  | [] => Ok all_results
  | sq :: sub_queries' =>
      results ← hybrid_search sq 20;
      let results := rerank_list sq results in
      retrieve_loop sub_queries' (all_results ++ take 5 results)
  end.

(** Lines 89-102: what [retrieve] does with the sub-queries. *)
Definition retrieve_sub_queries (sub_queries : list string)
    : result (list RetrievalResult) :=
  all_results ← retrieve_loop sub_queries [];
  let unique_results := _deduplicate all_results in
  Ok (take 10 unique_results).

Definition retrieve (query : string) (strategy : string)
    : result (list RetrievalResult) :=
  sub_queries ← decompose_query query;
  retrieve_sub_queries sub_queries.

(** *** analyze_risks (agents/sec_researcher.py) *)

Definition risk_entry (ticker year : string) (result : RetrievalResult)
    : Risk :=
  {| risk := content result;
     citation := {| source_type := "10-K";
                    ticker := ticker;
                    year := year;
                    section := metadata result !! "section";
                    url := metadata result !! "source_url" |} |}.

Definition analyze_risks (ticker : string) (years : list string)
    : result (gmap string (list Risk)) :=
  let query := "What are the key business risks for " ++ ticker ++ "?" in
  results_by_year ← compare_across_years query years;
  Ok (map_imap (M := gmap string)
        (λ year (results : list RetrievalResult),
           Some (risk_entry ticker year <$> results))
        results_by_year).
End Methods.

(** ** The methods that go through [np.argsort], over any argsort

    The same lines of [hybrid_search] and [retrieve], with
    [np.argsort] a parameter instead of the stable [argsort]: what they
    compute with an argsort of which only [ascending_argsort] is
    known. With [argsort] for it they are the definitions above. *)
Section MethodsOverArgsort.
Context {Key : Type} `{EqDecision Key}.
Variable passage_key : string → gmap string string → Key.
Variable np_argsort : list Q → list nat.
Variable self : AdvancedRAGPipeline.

(** Lines 52-55. *)
Definition sparse_indices_with (query : string) (k : nat) : list nat :=
  let tokenized_query := split query in
  let bm25_scores := bm25 self tokenized_query in
  top_k_indices np_argsort bm25_scores k.

Definition sparse_search_with (query : string) (k : nat)
    : result (list Document) :=
  traverse (λ i, match documents self !! i with
                 | Some d => Ok d
                 | None => Raise IndexError
                 end) (sparse_indices_with query k).

Definition hybrid_search_with (query : string) (k : nat)
    : result (list RetrievalResult) :=
  let dense_results := vector_store self query k in
  sparse_results ← sparse_search_with query k;
  let combined := _merge_results passage_key dense_results sparse_results in
  Ok combined.

(** Lines 89-97. *)
Fixpoint retrieve_loop_with (sub_queries : list string)
    (all_results : list RetrievalResult) : result (list RetrievalResult) :=
  match sub_queries with
  | [] => Ok all_results
  | sq :: sub_queries' =>
      results ← hybrid_search_with sq 20;
      let results := rerank_list self sq results in
      retrieve_loop_with sub_queries' (all_results ++ take 5 results)
  end.

(** Lines 89-102. *)
Definition retrieve_sub_queries_with (sub_queries : list string)
    : result (list RetrievalResult) :=
  all_results ← retrieve_loop_with sub_queries [];
  let unique_results := _deduplicate passage_key all_results in
  Ok (take 10 unique_results).
End MethodsOverArgsort.

(** What the loop of [rerank] leaves in a list of distinct objects:
    the first [len(scores)] candidates carry the new scores, the others
    (when the model returns too few scores, [zip] stops early) are as
    they were. *)
Definition rescore (scores : list Q) (results : list RetrievalResult)
    : list RetrievalResult :=
  zip_with set_score scores results ++ drop (length scores) results.

(** A string without whitespace: no whitespace character starts at any
    of its positions; it is what [str.split()] never cuts. *)
Fixpoint whitespace_free (s : string) : bool :=
  match s with
  | EmptyString => true
  | String a s' => (space_len s =? 0)%nat && whitespace_free s'
  end.

(** No whitespace character of the text [word ++ s] starts inside
    [word]. *)
Fixpoint clean (word s : string) : bool :=
  match word with
  | EmptyString => true
  | String a word' => (space_len (word ++ s) =? 0)%nat && clean word' s
  end.

(** The characters of the samples that are not ASCII: U+00A0
    (no-break space) and U+2003 (em space). *)
Definition nbsp : string :=
  String (ascii_of_nat 194) (String (ascii_of_nat 160) "").

Definition em_space : string :=
  String (ascii_of_nat 226)
    (String (ascii_of_nat 128) (String (ascii_of_nat 131) "")).

(** ** The rest of the researcher agent (agents/sec_researcher.py)

    [__init__] of the pipeline tokenizes the corpus for the BM25 index;
    the researcher's [get_financial_trends] goes through [retrieve]. *)

(** [[doc.content.split() for doc in documents]], line 28. *)
Definition tokenized_docs (docs : list Document) : list (list string) :=
  (λ doc, split (doc_content doc)) <$> docs.

Section Researcher.
Context {Key : Type} `{EqDecision Key}.
Variable passage_key : string → gmap string string → Key.
Variable self : AdvancedRAGPipeline.

Definition _parse_financial_data (results : list RetrievalResult)
    : gmap string string :=
  {[ "revenue_trend" := "N/A - requires 10-K indexing";
     "profit_margin" := "N/A";
     "cash_flow" := "N/A" ]}.

Definition get_financial_trends (ticker : string)
    : result (gmap string string) :=
  let query := "Revenue, profit margins, and cash flow trends for " ++ ticker in
  results ← retrieve passage_key self query "hybrid";
  let trends := _parse_financial_data results in
  Ok trends.
End Researcher.

(** ** The orchestrator (agents/orchestrator.py)

    A plan is the JSON object [create_plan] asks the planner for: a list
    of steps, each with an agent name, a task and the names it depends
    on. The four agents are collaborators of the orchestrator; what they
    return is opaque here (type [V]). [results['analyst']] raises
    [KeyError] when the key is absent, which [results.get] does not. *)

Record Step : Type := {
  agent : string;
  task : string;
  dependencies : list string
}.

Record OrchestratorAgent (V : Type) : Type := {
  sec_agent_run : string → string → V;
  market_agent_run : string → V;
  analyst_agent_synthesize : option V → option V → V;
  auditor_agent_verify : V → V
}.

Arguments sec_agent_run {V} _ _ _.
Arguments market_agent_run {V} _ _.
Arguments analyst_agent_synthesize {V} _ _ _.
Arguments auditor_agent_verify {V} _ _.

Inductive outcome (V : Type) : Type :=
  | Returned (results : gmap string V)
  | KeyError (key : string).

Arguments Returned {V} results.
Arguments KeyError {V} key.

Section Orchestrator.
Context {V : Type}.
Variable self : OrchestratorAgent V.

(** [all(dep in results for dep in step['dependencies'])] *)
Definition deps_ready (results : gmap string V) (step : Step) : bool :=
  forallb (λ dep, bool_decide (is_Some (results !! dep))) (dependencies step).

(** The body of the loop of [execute_plan], lines 73-93. *)
Definition execute_step (ticker : string) (results : gmap string V)
    (step : Step) : outcome V :=
  let agent_name := agent step in
  if negb (deps_ready results step) then Returned results
  else if String.eqb agent_name "sec_researcher" then
    Returned (<[agent_name := sec_agent_run self (task step) ticker]> results)
  else if String.eqb agent_name "market_data" then
    Returned (<[agent_name := market_agent_run self ticker]> results)
  else if String.eqb agent_name "analyst" then
    Returned (<[agent_name :=
                  analyst_agent_synthesize self
                    (results !! "sec_researcher")
                    (results !! "market_data")]> results)
  else if String.eqb agent_name "auditor" then
    match results !! "analyst" with
    | Some analysis =>
        Returned (<[agent_name := auditor_agent_verify self analysis]> results)
    | None => KeyError "analyst"
    end
  else Returned results.

Fixpoint execute_steps (ticker : string) (steps : list Step)
    (results : gmap string V) : outcome V :=
  match steps with
  | [] => Returned results
  | step :: steps' =>
      match execute_step ticker results step with
      | Returned results' => execute_steps ticker steps' results'
      | KeyError key => KeyError key
      end
  end.

(** [plan] is [plan['steps']]. *)
Definition execute_plan (plan : list Step) (ticker : string) : outcome V :=
  execute_steps ticker plan ∅.
End Orchestrator.

(** The agent names [execute_plan] dispatches on. *)
Definition known_agents : list string :=
  ["sec_researcher"; "market_data"; "analyst"; "auditor"].

(** The plan the prompt of [create_plan] shows the planner (lines
    53-58), with the tasks filled in by [tasks]. *)
Definition prompt_plan (tasks : string → string) : list Step :=
  [ {| agent := "sec_researcher"; task := tasks "sec_researcher";
       dependencies := [] |};
    {| agent := "market_data"; task := tasks "market_data";
       dependencies := [] |};
    {| agent := "analyst"; task := tasks "analyst";
       dependencies := ["sec_researcher"; "market_data"] |};
    {| agent := "auditor"; task := tasks "auditor";
       dependencies := ["analyst"] |} ].

(** ** The plan as [json.loads] delivers it

    [execute_plan] is given what [create_plan] parsed from the answer
    of the planner: any JSON value. Subscripting it, iterating over it
    and looking a dependency up in [results] can raise before an agent
    is called. *)
Module Plan.

#[local] Unset Elimination Schemes.

Inductive json : Type :=
  | JNull
  | JBool (b : bool)
  | JNumber (n : Q)
  | JString (s : string)
  | JArray (items : list json)
  | JObject (fields : gmap string json).

#[local] Set Elimination Schemes.

Inductive error : Type :=
  | KeyError (key : string)
  | TypeError.

Inductive outcome (A : Type) : Type :=
  | Returned (a : A)
  | Raised (e : error).

Arguments Returned {A} a.
Arguments Raised {A} e.

Global Instance outcome_ret : MRet outcome := @Returned.

Global Instance outcome_bind : MBind outcome := λ A B k c,
  match c with
  | Returned a => k a
  | Raised e => Raised e
  end.

(** [v[key]] with a string key: a [dict] has the key or raises
    [KeyError]; a list, a string, a number, a boolean and [None] raise
    [TypeError]. *)
Definition subscript (v : json) (key : string) : outcome json :=
  match v with
  | JObject fields =>
      match fields !! key with
      | Some x => Returned x
      | None => Raised (KeyError key)
      end
  | _ => Raised TypeError
  end.

(** [iter(v)]: the items of a list, the keys of a [dict], the
    characters of a string; nothing else is iterable. *)
Definition iterate (v : json) : outcome (list json) :=
  match v with
  | JArray items => Returned items
  | JObject fields => Returned (JString <$> (map_to_list fields).*1)
  | JString s => Returned (JString <$> chars s)
  | _ => Raised TypeError
  end.

(** [dep in results], the keys of [results] being strings: a list and
    a [dict] are unhashable. *)
Definition contains {V} (results : gmap string V) (dep : json) : outcome bool :=
  match dep with
  | JString s => Returned (bool_decide (is_Some (results !! s)))
  | JArray _ | JObject _ => Raised TypeError
  | JNull | JBool _ | JNumber _ => Returned false
  end.

(** [all(dep in results for dep in deps)] stops at the first [False]. *)
Fixpoint all_in {V} (results : gmap string V) (deps : list json) : outcome bool :=
  match deps with
  | [] => Returned true
  | dep :: deps' =>
      found ← contains results dep;
      if found : bool then all_in results deps' else Returned false
  end.

(** The four agents; the task handed to [sec_agent.run] is whatever
    the step has under ['task']. *)
Record OrchestratorAgent (V : Type) : Type := {
  sec_agent_run : json → string → V;
  market_agent_run : string → V;
  analyst_agent_synthesize : option V → option V → V;
  auditor_agent_verify : V → V
}.

Arguments sec_agent_run {V} _ _ _.
Arguments market_agent_run {V} _ _.
Arguments analyst_agent_synthesize {V} _ _ _.
Arguments auditor_agent_verify {V} _ _.

Section Execute.
Context {V : Type}.
Variable self : OrchestratorAgent V.

(** Lines 83-93: [agent_name] equals one of the four names only if it
    is a string. *)
Definition dispatch (ticker : string) (results : gmap string V)
    (agent_name task : json) : outcome (gmap string V) :=
  match agent_name with
  | JString name =>
      if String.eqb name "sec_researcher" then
        Returned (<[name := sec_agent_run self task ticker]> results)
      else if String.eqb name "market_data" then
        Returned (<[name := market_agent_run self ticker]> results)
      else if String.eqb name "analyst" then
        Returned (<[name :=
                      analyst_agent_synthesize self
                        (results !! "sec_researcher")
                        (results !! "market_data")]> results)
      else if String.eqb name "auditor" then
        match results !! "analyst" with
        | Some analysis =>
            Returned (<[name := auditor_agent_verify self analysis]> results)
        | None => Raised (KeyError "analyst")
        end
      else Returned results
  | _ => Returned results
  end.

(** The body of the loop, lines 73-93. *)
Definition execute_step (ticker : string) (results : gmap string V)
    (step : json) : outcome (gmap string V) :=
  agent_name ← subscript step "agent";
  task ← subscript step "task";
  dependencies ← subscript step "dependencies";
  deps ← iterate dependencies;
  deps_ready ← all_in results deps;
  if negb deps_ready then Returned results
  else dispatch ticker results agent_name task.

Fixpoint execute_steps (ticker : string) (steps : list json)
    (results : gmap string V) : outcome (gmap string V) :=
  match steps with
  | [] => Returned results
  | step :: steps' =>
      results' ← execute_step ticker results step;
      execute_steps ticker steps' results'
  end.

Definition execute_plan (plan : json) (ticker : string)
    : outcome (gmap string V) :=
  steps ← subscript plan "steps";
  steps ← iterate steps;
  execute_steps ticker steps ∅.
End Execute.

End Plan.

(** *** Plans of the shape the prompt asks for *)

Definition decode_string (v : Plan.json) : option string :=
  match v with
  | Plan.JString s => Some s
  | _ => None
  end.

(** A step with a string ['agent'], a string ['task'] and a list of
    strings as ['dependencies'] (other keys are ignored). *)
Definition decode_step (step : Plan.json) : option Step :=
  match step with
  | Plan.JObject fields =>
      match fields !! "agent", fields !! "task", fields !! "dependencies" with
      | Some (Plan.JString a), Some (Plan.JString t), Some (Plan.JArray deps) =>
          deps' ← mapM decode_string deps;
          Some {| agent := a; task := t; dependencies := deps' |}
      | _, _, _ => None
      end
  | _ => None
  end.

Definition decode_plan (plan : Plan.json) : option (list Step) :=
  match plan with
  | Plan.JObject fields =>
      match fields !! "steps" with
      | Some (Plan.JArray items) => mapM decode_step items
      | _ => None
      end
  | _ => None
  end.

(** The agents as [execute_plan] on decoded steps calls them. *)
Definition on_strings {V} (self : Plan.OrchestratorAgent V) : OrchestratorAgent V :=
  {| sec_agent_run := λ task, Plan.sec_agent_run self (Plan.JString task);
     market_agent_run := Plan.market_agent_run self;
     analyst_agent_synthesize := Plan.analyst_agent_synthesize self;
     auditor_agent_verify := Plan.auditor_agent_verify self |}.

(** The keys [execute_plan] subscripts. *)
Definition subscripted_keys : list string :=
  ["steps"; "agent"; "task"; "dependencies"; "analyst"].

Definition embed {V} (o : outcome V) : Plan.outcome (gmap string V) :=
  match o with
  | Returned results => Plan.Returned results
  | KeyError key => Plan.Raised (Plan.KeyError key)
  end.

(** ** The interactive chat loop (main_v1.py, [chat])

    One turn of [while True] consumes one [input]: what
    [typer.prompt] gave (or the exception it left with) and, for a
    query that is no command, how [chat_agent.run] answered and what
    [datetime.now().isoformat()] read. The loop prints ([printed], the
    markup left out) and appends to [session_state["conversation"]]. *)
Module Chat.

Record Turn : Type := {
  timestamp : string;
  ticker : string;
  query : string;
  response : string
}.

Inductive reply : Type :=
  | Reply (content : string)
  | Failed (message : string)      (* an [Exception] *)
  | Interrupted.                   (* [KeyboardInterrupt] *)

Inductive input : Type :=
  | Typed (query : string) (answer : reply) (now : string)
  | PromptFailed (message : string)
  | PromptInterrupted.

Inductive printed : Type :=
  | Goodbye
  | HistoryHeader
  | HistoryTimestamp (timestamp : string)
  | HistoryQuery (line : string)
  | AssistantHeader
  | Assistant (content : string)
  | Error (message : string).

(** [str.lower()] on ASCII text. *)
Definition lower_ascii (a : ascii) : ascii :=
  let n := nat_of_ascii a in
  if ((65 <=? n) && (n <=? 90))%nat then ascii_of_nat (n + 32) else a.

Fixpoint lower (s : string) : string :=
  match s with
  | EmptyString => EmptyString
  | String a s' => String (lower_ascii a) (lower s')
  end.

(** The two lines the history shows for a recorded turn. *)
Definition history_lines (turn : Turn) : list printed :=
  [ HistoryTimestamp (timestamp turn);
    HistoryQuery ("Query: " ++ substring 0 100 (query turn) ++ "...") ].

(** The loop on the inputs still to come; the flag tells whether it
    has left by [break] (otherwise it is back at the prompt). *)
Fixpoint chat (tkr : string) (inputs : list input) (conversation : list Turn)
    : list Turn * list printed * bool :=
  match inputs with
  | [] => (conversation, [], false)
  | PromptInterrupted :: _ => (conversation, [Goodbye], true)
  | PromptFailed message :: inputs' =>
      let '(conversation', out, stopped) := chat tkr inputs' conversation in
      (conversation', Error message :: out, stopped)
  | Typed q answer now :: inputs' =>
      if String.eqb (lower q) "exit" then (conversation, [Goodbye], true)
      else if String.eqb (lower q) "history" then
        let '(conversation', out, stopped) := chat tkr inputs' conversation in
        (conversation',
         HistoryHeader :: flat_map history_lines conversation ++ out,
         stopped)
      else
        match answer with
        | Reply content =>
            let turn := {| timestamp := now; ticker := tkr;
                           query := q; response := content |} in
            let '(conversation', out, stopped) :=
              chat tkr inputs' (conversation ++ [turn]) in
            (conversation', AssistantHeader :: Assistant content :: out, stopped)
        | Failed message =>
            let '(conversation', out, stopped) := chat tkr inputs' conversation in
            (conversation', Error message :: out, stopped)
        | Interrupted => (conversation, [Goodbye], true)
        end
  end.

End Chat.

(** ** A sample corpus

    A pipeline over ten passages, for the examples: the dense index
    returns the first [k] passages of the corpus, the lexical score of a
    passage is the number of query tokens it contains, and the
    cross-encoder scores a pair by a tenth of that number. *)

Definition locator_key (text : string) (meta : gmap string string)
    : string * option string :=
  (text, meta !! "source_url").

Definition passage (text : string) (meta : gmap string string) : Document :=
  {| doc_content := text; doc_metadata := meta |}.

Definition acme_corpus : list Document :=
  [ passage "alpha supply chain risk" {[ "section" := "Item 1A" ]};
    passage "alpha beta" ∅;
    passage "alpha gamma" ∅;
    passage "alpha delta" ∅;
    passage "alpha epsilon" ∅;
    passage "supply chain risk 2021" {[ "section" := "Item 1A" ]};
    passage "supply chain risk 2022" {[ "section" := "Item 1A" ]};
    passage "supply chain risk 2023" {[ "section" := "Item 7" ]};
    passage "supply chain risk outlook" ∅;
    passage "supply chain risk factors" ∅ ].

Definition overlap (tokens : list string) (text : string) : nat :=
  length (filter (λ w, w ∈ split text) tokens).

Definition acme : AdvancedRAGPipeline :=
  {| vector_store := λ _ k, take k acme_corpus;
     documents := acme_corpus;
     bm25 := λ tokens,
       (λ d, inject_Z (Z.of_nat (overlap tokens (doc_content d)))) <$> acme_corpus;
     reranker := λ pairs,
       (λ p, Z.of_nat (overlap (split p.1) p.2) # 10)%Q <$> pairs |}.

(** The same pipeline with a dense index that finds nothing. *)
Definition acme_sparse_only : AdvancedRAGPipeline :=
  {| vector_store := λ _ _, [];
     documents := documents acme;
     bm25 := bm25 acme;
     reranker := reranker acme |}.

(** The same pipeline holding only the first five passages while its
    BM25 index still scores all ten (a stale index). *)
Definition acme_stale : AdvancedRAGPipeline :=
  {| vector_store := vector_store acme;
     documents := take 5 acme_corpus;
     bm25 := bm25 acme;
     reranker := reranker acme |}.

(** A lexical index without ties over a [corpus] of fewer than a
    hundred passages: a hundred times the number of query tokens a
    passage contains, plus its distance from the end of the corpus. *)
Definition graded_scores (corpus : list Document) (tokens : list string)
    : list Q :=
  imap (λ i d, inject_Z (Z.of_nat
                 (100 * overlap tokens (doc_content d) + (length corpus - i))))
    corpus.

(** The sample pipeline with that index, and a dense index that
    returns two passages at most. *)
Definition acme_graded : AdvancedRAGPipeline :=
  {| vector_store := λ _ k, take (k `min` 2) acme_corpus;
     documents := acme_corpus;
     bm25 := graded_scores acme_corpus;
     reranker := reranker acme |}.

(** Twenty-two passages, of which the pipeline holds the first
    twenty-one while its lexical index still scores them all. *)
Definition wide_corpus : list Document :=
  (acme_corpus
   ++ ((λ d, passage (doc_content d ++ " restated") (doc_metadata d))
         <$> acme_corpus)
   ++ [passage "delisting notice" ∅; passage "omega" ∅])%list.

Definition acme_partial : AdvancedRAGPipeline :=
  {| vector_store := λ _ k, take k (take 21 wide_corpus);
     documents := take 21 wide_corpus;
     bm25 := graded_scores wide_corpus;
     reranker := reranker acme |}.

(** Four agents that report what they were given, for the examples. *)
Definition echo_agents : OrchestratorAgent string :=
  {| sec_agent_run := λ task ticker, "sec(" ++ task ++ "," ++ ticker ++ ")";
     market_agent_run := λ ticker, "market(" ++ ticker ++ ")";
     analyst_agent_synthesize := λ sec market,
       "analysis(" ++ default "None" sec ++ "," ++ default "None" market ++ ")";
     auditor_agent_verify := λ analysis, "audit(" ++ analysis ++ ")" |}.

(** The same four agents for plans as parsed. *)
Definition echo_plan_agents : Plan.OrchestratorAgent string :=
  {| Plan.sec_agent_run := λ task ticker,
       match task with
       | Plan.JString t => "sec(" ++ t ++ "," ++ ticker ++ ")"
       | _ => "sec(?," ++ ticker ++ ")"
       end;
     Plan.market_agent_run := market_agent_run echo_agents;
     Plan.analyst_agent_synthesize := analyst_agent_synthesize echo_agents;
     Plan.auditor_agent_verify := auditor_agent_verify echo_agents |}.

(** A step as the prompt writes it. *)
Definition step_json (a : string) (deps : list string) : Plan.json :=
  Plan.JObject {[ "agent" := Plan.JString a;
                  "task" := Plan.JString "...";
                  "dependencies" := Plan.JArray (Plan.JString <$> deps) ]}.

Definition plan_json (steps : list Plan.json) : Plan.json :=
  Plan.JObject {[ "steps" := Plan.JArray steps ]}.

(** * Properties *)

Local Open Scope list_scope.
Local Open Scope nat_scope.

(** ** The stable descending sort *)

Section SortedFacts.
Context {A : Type} (key : A → Q).

Lemma insert_desc_Permutation x l : insert_desc key x l ≡ₚ x :: l.
Proof.
  induction l as [|y l IH]; simpl; [done|].
  destruct (Qlt_bool (key x) (key y)); [|done].
  rewrite IH. apply Permutation_swap.
Qed.

Lemma sorted_reverse_Permutation l : sorted_reverse key l ≡ₚ l.
Proof.
  induction l as [|x l IH]; simpl; [done|].
  rewrite insert_desc_Permutation. by rewrite IH.
Qed.

Lemma Qlt_bool_true a b : Qlt_bool a b = true → (a <= b)%Q.
Proof.
  unfold Qlt_bool. intros H. apply negb_true_iff in H.
  apply Qlt_le_weak, Qnot_le_lt. intros Hle.
  apply Qle_bool_iff in Hle. congruence.
Qed.

Lemma Qlt_bool_false a b : Qlt_bool a b = false → (b <= a)%Q.
Proof.
  unfold Qlt_bool. intros H. apply negb_false_iff in H.
  by apply Qle_bool_iff.
Qed.

Lemma insert_desc_sorted x l :
  StronglySorted (key_ge key) l → StronglySorted (key_ge key) (insert_desc key x l).
Proof.
  induction 1 as [|y l Hs IH Hy]; simpl.
  - repeat constructor.
  - destruct (Qlt_bool (key x) (key y)) eqn:Hxy.
    + constructor; [done|].
      rewrite insert_desc_Permutation. constructor; [|done].
      by apply Qlt_bool_true.
    + apply Qlt_bool_false in Hxy.
      constructor; [by constructor|].
      constructor; [done|].
      eapply Forall_impl; [exact Hy|].
      intros z Hz. unfold key_ge in *. by apply Qle_trans with (key y).
Qed.

Lemma sorted_reverse_sorted l : StronglySorted (key_ge key) (sorted_reverse key l).
Proof.
  induction l as [|x l IH]; simpl; [constructor|].
  by apply insert_desc_sorted.
Qed.

Lemma insert_desc_tied s x l :
  List.filter (tied key s) (insert_desc key x l) = List.filter (tied key s) (x :: l).
Proof.
  induction l as [|y l IH]; [done|].
  cbn [insert_desc].
  destruct (Qlt_bool (key x) (key y)) eqn:Hxy; [|done].
  cbn [List.filter] in *. rewrite IH.
  destruct (tied key s x) eqn:Hx; [|done].
  destruct (tied key s y) eqn:Hy; [|done].
  exfalso. unfold tied in *.
  apply Qeq_bool_iff in Hx, Hy.
  unfold Qlt_bool in Hxy. apply negb_true_iff in Hxy.
  assert (key y <= key x)%Q as Hle by (rewrite Hx, Hy; apply Qle_refl).
  apply Qle_bool_iff in Hle. congruence.
Qed.

Lemma sorted_reverse_stable s l :
  List.filter (tied key s) (sorted_reverse key l) = List.filter (tied key s) l.
Proof.
  induction l as [|x l IH]; [done|].
  cbn [sorted_reverse foldr]. rewrite insert_desc_tied.
  cbn [List.filter]. fold (sorted_reverse key l). by rewrite IH.
Qed.

Lemma sorted_reverse_length l : length (sorted_reverse key l) = length l.
Proof. by rewrite sorted_reverse_Permutation. Qed.
End SortedFacts.

(** ** Insertion-ordered dictionaries *)

Section UpsertFacts.
Context {Key : Type} `{EqDecision Key} {A : Type}.
Variable key : A → Key.
Variable combine : A → A → A.
(** an updated entry stays under its identity *)
Hypothesis combine_key : ∀ a r, key a = key r → key (combine a r) = key a.

Lemma collect_into_cons acc r l :
  collect_into key combine acc (r :: l)
  = collect_into key combine (upsert key combine r acc) l.
Proof. done. Qed.

Lemma upsert_keys r acc :
  key <$> upsert key combine r acc
  = if decide (key r ∈ key <$> acc) then key <$> acc
    else (key <$> acc) ++ [key r].
Proof.
  induction acc as [|a acc IH]; cbn [upsert].
  - rewrite decide_False; [done|]. cbn. apply not_elem_of_nil.
  - destruct (decide (key a = key r)) as [Heq|Hne].
    + rewrite decide_True; [|rewrite fmap_cons, Heq; left].
      cbn. by rewrite combine_key.
    + rewrite !fmap_cons, IH.
      destruct (decide (key r ∈ key <$> acc)) as [Hin|Hnin].
      * rewrite decide_True; [done|by right].
      * rewrite decide_False; [done|].
        intros [?|?]%elem_of_cons; congruence.
Qed.

Lemma elem_of_upsert_keys κ r acc :
  κ ∈ key <$> upsert key combine r acc ↔ κ = key r ∨ κ ∈ key <$> acc.
Proof.
  rewrite upsert_keys. case_decide as Hin.
  - split; [by right|]. intros [->|?]; done.
  - rewrite elem_of_app, list_elem_of_singleton. tauto.
Qed.

Lemma upsert_NoDup r acc :
  NoDup (key <$> acc) → NoDup (key <$> upsert key combine r acc).
Proof.
  intros Hnd. rewrite upsert_keys. case_decide as Hin; [done|].
  apply NoDup_app. split_and!; [done| |apply NoDup_singleton].
  intros κ Hκ ->%list_elem_of_singleton. done.
Qed.

Lemma collect_into_NoDup acc l :
  NoDup (key <$> acc) → NoDup (key <$> collect_into key combine acc l).
Proof.
  revert acc. induction l as [|r l IH]; intros acc Hnd; [done|].
  rewrite collect_into_cons. by apply IH, upsert_NoDup.
Qed.

Lemma collect_NoDup l : NoDup (key <$> collect key combine l).
Proof. apply collect_into_NoDup. constructor. Qed.

Lemma elem_of_collect_into_keys κ acc l :
  κ ∈ key <$> collect_into key combine acc l
  ↔ κ ∈ key <$> acc ∨ κ ∈ key <$> l.
Proof.
  revert acc. induction l as [|r l IH]; intros acc.
  - cbn. rewrite elem_of_nil. tauto.
  - rewrite collect_into_cons, IH, elem_of_upsert_keys, fmap_cons,
      elem_of_cons. tauto.
Qed.

Lemma upsert_length r acc :
  length (upsert key combine r acc) ≤ S (length acc).
Proof.
  induction acc as [|a acc IH]; cbn [upsert]; [done|].
  case_decide; cbn; lia.
Qed.

Lemma collect_into_length acc l :
  length (collect_into key combine acc l) ≤ length acc + length l.
Proof.
  revert acc. induction l as [|r l IH]; intros acc; cbn [length].
  - cbn. lia.
  - rewrite collect_into_cons. specialize (IH (upsert key combine r acc)).
    pose proof (upsert_length r acc). lia.
Qed.

Lemma collect_length l : length (collect key combine l) ≤ length l.
Proof. apply (collect_into_length [] l). Qed.

Lemma upsert_fresh r acc :
  key r ∉ key <$> acc → upsert key combine r acc = acc ++ [r].
Proof.
  induction acc as [|a acc IH]; intros Hnin; cbn [upsert]; [done|].
  rewrite fmap_cons, not_elem_of_cons in Hnin. destruct Hnin as [Hne Hnin].
  rewrite decide_False by congruence. by rewrite IH.
Qed.

(** Nothing to merge: a list of pairwise distinct identities is
    collected as it stands. *)
Lemma collect_into_fresh acc l :
  NoDup (key <$> (acc ++ l)) → collect_into key combine acc l = acc ++ l.
Proof.
  revert acc. induction l as [|r l IH]; intros acc Hnd.
  - cbn. by rewrite app_nil_r.
  - rewrite collect_into_cons, upsert_fresh.
    + rewrite IH; rewrite <-app_assoc; done.
    + rewrite fmap_app, fmap_cons in Hnd.
      apply NoDup_app in Hnd as (_ & Hdisj & _).
      intros Hin. apply (Hdisj _ Hin). left.
Qed.

Lemma collect_fresh l : NoDup (key <$> l) → collect key combine l = l.
Proof. apply (collect_into_fresh [] l). Qed.

(** What an entry of [upsert r acc] can be. *)
Lemma elem_of_upsert a' r acc :
  NoDup (key <$> acc) →
  a' ∈ upsert key combine r acc →
  (a' ∈ acc ∧ key a' ≠ key r)
  ∨ (∃ a, a ∈ acc ∧ key a = key r ∧ a' = combine a r)
  ∨ (a' = r ∧ key r ∉ key <$> acc).
Proof.
  induction acc as [|a acc IH]; intros Hnd; cbn [upsert].
  - intros ->%list_elem_of_singleton. right; right. split; [done|].
    apply not_elem_of_nil.
  - rewrite fmap_cons in Hnd. apply NoDup_cons in Hnd as [Ha Hnd].
    destruct (decide (key a = key r)) as [Heq|Hne].
    + intros [->|Hin]%elem_of_cons.
      * right; left. exists a. split_and!; [left|done|done].
      * left. split; [by right|]. intros Heq'.
        apply Ha. rewrite Heq, <-Heq'. by apply list_elem_of_fmap_2.
    + intros [->|Hin]%elem_of_cons.
      * left. split; [left|done].
      * destruct (IH Hnd Hin) as [[? ?]|[(a0 & ? & ? & ?)|[? ?]]].
        -- left. split; [by right|done].
        -- right; left. exists a0. split_and!; [by right|done|done].
        -- right; right. split; [done|].
           rewrite fmap_cons. intros [?|?]%elem_of_cons; congruence.
Qed.

(** Where an element of [r :: acc] ends up. *)
Lemma upsert_covers x r acc :
  x ∈ r :: acc →
  ∃ a', a' ∈ upsert key combine r acc
        ∧ (a' = x ∨ ∃ a, a ∈ acc ∧ key a = key r
                          ∧ (x = a ∨ x = r) ∧ a' = combine a r).
Proof.
  induction acc as [|a acc IH]; cbn [upsert].
  - intros [->|Hin%elem_of_nil]%elem_of_cons; [|done].
    exists r. split; [left|by left].
  - destruct (decide (key a = key r)) as [Heq|Hne].
    + intros [->|[->|Hin]%elem_of_cons]%elem_of_cons.
      * exists (combine a r). split; [left|]. right. exists a.
        split_and!; [left|done|by right|done].
      * exists (combine a r). split; [left|]. right. exists a.
        split_and!; [left|done|by left|done].
      * exists x. split; [by right|by left].
    + intros [->|[->|Hin]%elem_of_cons]%elem_of_cons.
      * destruct IH as (a' & Hin' & Ha'); [left|].
        exists a'. split; [by right|].
        destruct Ha' as [->|(a0 & ? & ? & ? & ?)]; [by left|].
        right. exists a0. split_and!; [by right|done..].
      * exists a. split; [left|by left].
      * destruct IH as (a' & Hin' & Ha'); [by right|].
        exists a'. split; [by right|].
        destruct Ha' as [->|(a0 & ? & ? & ? & ?)]; [by left|].
        right. exists a0. split_and!; [by right|done..].
Qed.
End UpsertFacts.

(** ** rerank *)

Section RerankFacts.
Variable self : AdvancedRAGPipeline.

Lemma set_score_set_score s s0 v : set_score s (set_score s0 v) = set_score s v.
Proof. done. Qed.

Lemma assign_scores_cons r s results scores h :
  assign_scores (r :: results) (s :: scores) h
  = assign_scores results scores (alter (set_score s) r h).
Proof. done. Qed.

Lemma assign_scores_length results scores h :
  length (assign_scores results scores h) = length h.
Proof.
  revert scores h. induction results as [|r results IH];
    intros [|s scores] h; try done.
  rewrite assign_scores_cons, IH. apply length_alter.
Qed.

(** The loop touches the objects of the list and no other. *)
Lemma assign_scores_other r results scores h :
  r ∉ results → assign_scores results scores h !! r = h !! r.
Proof.
  revert scores h. induction results as [|r0 results IH];
    intros [|s scores] h Hnin; try done.
  apply not_elem_of_cons in Hnin as [Hne Hnin].
  rewrite assign_scores_cons, IH by done.
  by apply list_lookup_alter_ne.
Qed.

(** An object of the list ends with the score of its last position. *)
Lemma assign_scores_lookup r results scores h :
  length scores = length results →
  r ∈ results →
  ∃ i s, results !! i = Some r ∧ scores !! i = Some s
         ∧ (∀ j, i < j → results !! j ≠ Some r)
         ∧ assign_scores results scores h !! r = set_score s <$> h !! r.
Proof.
  revert scores h. induction results as [|r0 results IH];
    intros [|s0 scores] h Hlen Hin; try done.
  - by apply elem_of_nil in Hin.
  - rewrite assign_scores_cons.
    destruct (decide (r ∈ results)) as [Hr|Hr].
    + destruct (IH scores (alter (set_score s0) r0 h)) as (i & s & Hi & Hs & Hlast & Hh);
        [by injection Hlen|done|].
      exists (S i), s. split_and!; [done|done| |].
      * intros [|j] Hj; [lia|]. apply Hlast. lia.
      * rewrite Hh, list_lookup_alter. case_decide as Heq; [|done].
        subst r0. rewrite <-option_fmap_compose.
        apply option_fmap_ext. intros v. apply set_score_set_score.
    + apply elem_of_cons in Hin as [->|Hin]; [|done].
      exists 0, s0. split_and!; [done|done| |].
      * intros [|j] Hj Hlook; [lia|]. apply Hr.
        by eapply list_elem_of_lookup_2.
      * rewrite assign_scores_other by done. apply list_lookup_alter_eq.
Qed.

Lemma lookup_total_fmap_lt (f : RetrievalResult → RetrievalResult)
    (h h' : list RetrievalResult) r :
  r < length h → h' !! r = f <$> h !! r → h' !!! r = f (h !!! r).
Proof.
  intros Hlt Hh. apply lookup_lt_is_Some in Hlt as [v Hv].
  rewrite Hv in Hh. rewrite !list_lookup_total_alt, Hh, Hv. done.
Qed.

(** C2. For every query and candidate list (of live objects, the model
    returning one score per pair), [rerank] returns a permutation of
    its input, hence the same multiset of passage identities, sorted
    non-increasing by the score it has just written; every candidate's
    [score] field is overwritten by a cross-encoder score (that of its
    position, the last one if the object is listed twice) while its
    other fields stay; candidates with equal scores keep their input
    order. *)
Theorem rerank_sorted_permutation (h : list RetrievalResult)
    (query : string) (results : list nat) :
  Forall (λ r, r < length h) results →
  length (reranker self (rerank_pairs h query results)) = length results →
  let scores := reranker self (rerank_pairs h query results) in
  let h' := (rerank self h query results).1 in
  let out := (rerank self h query results).2 in
  out ≡ₚ results
  ∧ ((λ r, (content (h' !!! r), metadata (h' !!! r))) <$> out
     ≡ₚ (λ r, (content (h !!! r), metadata (h !!! r))) <$> results)
  ∧ StronglySorted (λ a b, score (h' !!! b) <= score (h' !!! a))%Q out
  ∧ (∀ r, r ∈ results →
       ∃ i s, results !! i = Some r ∧ scores !! i = Some s
              ∧ (∀ j, i < j → results !! j ≠ Some r)
              ∧ h' !!! r = set_score s (h !!! r))
  ∧ (NoDup results → ∀ i r, results !! i = Some r →
       ∃ s, scores !! i = Some s ∧ h' !!! r = set_score s (h !!! r))
  ∧ (∀ s, List.filter (tied (λ x, score (h' !!! x)) s) out
          = List.filter (tied (λ x, score (h' !!! x)) s) results).
Proof.
  intros Hlive Hlen scores h' out.
  assert (Hover : ∀ r, r ∈ results →
    ∃ i s, results !! i = Some r ∧ scores !! i = Some s
           ∧ (∀ j, i < j → results !! j ≠ Some r)
           ∧ h' !!! r = set_score s (h !!! r)).
  { intros r Hr.
    destruct (assign_scores_lookup r results scores h Hlen Hr)
      as (i & s & Hi & Hs & Hlast & Hh).
    exists i, s. split_and!; [done..|].
    apply lookup_total_fmap_lt; [|done].
    rewrite Forall_forall in Hlive. by apply Hlive. }
  assert (Hperm : out ≡ₚ results) by apply sorted_reverse_Permutation.
  split_and!.
  - done.
  - rewrite Hperm. erewrite list_fmap_ext; [done|].
    intros i r Hr.
    destruct (Hover r) as (? & s & _ & _ & _ & Hh);
      [by eapply list_elem_of_lookup_2|].
    by rewrite Hh.
  - apply (sorted_reverse_sorted (λ x, score (h' !!! x))).
  - done.
  - intros Hnd i r Hi.
    destruct (Hover r) as (i' & s & Hi' & Hs & _ & Hh);
      [by eapply list_elem_of_lookup_2|].
    exists s. split; [|done].
    by rewrite (NoDup_lookup results i i' r Hnd Hi Hi').
  - intros s. apply sorted_reverse_stable.
Qed.
End RerankFacts.

(** ** The sparse candidates *)

Section SparseFacts.
Variable self : AdvancedRAGPipeline.

Lemma argsort_Permutation a : argsort a ≡ₚ seq 0 (length a).
Proof. apply sorted_reverse_Permutation. Qed.

Lemma slice_last_length {A} k (l : list A) :
  1 ≤ k → length (slice_last k l) ≤ k.
Proof.
  intros Hk. destruct k as [|k]; [lia|].
  cbn [slice_last]. rewrite length_drop. lia.
Qed.

Lemma slice_last_subseteq {A} k (l : list A) : slice_last k l ⊆ l.
Proof.
  destruct k as [|k]; [done|]. apply subseteq_drop.
Qed.

Lemma sparse_indices_length query k :
  1 ≤ k → length (sparse_indices self query k) ≤ k.
Proof.
  intros Hk. unfold sparse_indices.
  rewrite length_reverse. by apply slice_last_length.
Qed.

Lemma sparse_indices_lt query k i :
  i ∈ sparse_indices self query k → i < length (bm25 self (split query)).
Proof.
  unfold sparse_indices. rewrite elem_of_reverse.
  intros Hi%slice_last_subseteq.
  rewrite argsort_Permutation in Hi.
  apply elem_of_seq in Hi. lia.
Qed.

Lemma traverse_Ok {A B} (f : A → result B) (g : A → option B) l :
  (∀ x, x ∈ l → ∃ y, g x = Some y ∧ f x = Ok y) →
  ∃ ys, traverse f l = Ok ys ∧ Forall2 (λ x y, g x = Some y) l ys.
Proof.
  induction l as [|x l IH]; intros Hf.
  - exists []. split; [done|constructor].
  - destruct (Hf x) as (y & Hg & Hy); [left|].
    destruct IH as (ys & Hys & Hall); [intros z Hz; apply Hf; by right|].
    exists (y :: ys). split; [|by constructor].
    cbn [traverse]. rewrite Hy. cbn. rewrite Hys. done.
Qed.

(** With one BM25 score per document every index is in range: the
    sparse search returns, and returns at most [k] documents. *)
Lemma sparse_search_Ok query k :
  length (bm25 self (split query)) = length (documents self) →
  ∃ sparse_results,
    sparse_search self query k = Ok sparse_results
    ∧ Forall2 (λ i d, documents self !! i = Some d)
        (sparse_indices self query k) sparse_results.
Proof.
  intros Hlen. apply traverse_Ok.
  intros i Hi%sparse_indices_lt. rewrite Hlen in Hi.
  apply lookup_lt_is_Some in Hi as [d Hd].
  exists d. by rewrite Hd.
Qed.
End SparseFacts.

(** ** _merge_results *)

Section MergeFacts.
Context {Key : Type} `{EqDecision Key}.
Variable passage_key : string → gmap string string → Key.

Local Abbreviation key := (result_key passage_key).
Local Abbreviation dkey := (doc_key passage_key).

Lemma result_key_tag kind d : key (tag kind d) = dkey d.
Proof. done. Qed.

Lemma result_key_tags kind (l : list Document) :
  key <$> (tag kind <$> l) = dkey <$> l.
Proof. rewrite <-list_fmap_compose. done. Qed.

Lemma merge_entry_key a r : key a = key r → key (merge_entry a r) = key a.
Proof. intros _. unfold merge_entry. by case_decide. Qed.

Lemma merge_NoDup dense sparse :
  NoDup (key <$> _merge_results passage_key dense sparse).
Proof. apply collect_NoDup, merge_entry_key. Qed.

Lemma merge_length dense sparse :
  length (_merge_results passage_key dense sparse)
  ≤ length dense + length sparse.
Proof.
  unfold _merge_results.
  etrans; [apply collect_length|].
  by rewrite length_app, !length_fmap.
Qed.

Lemma merge_keys κ dense sparse :
  κ ∈ key <$> _merge_results passage_key dense sparse
  ↔ κ ∈ dkey <$> dense ∨ κ ∈ dkey <$> sparse.
Proof.
  unfold _merge_results, collect.
  rewrite elem_of_collect_into_keys by apply merge_entry_key.
  rewrite fmap_app, elem_of_app, !result_key_tags, fmap_nil, elem_of_nil.
  tauto.
Qed.

Local Abbreviation tagged := (tagged passage_key).
Local Abbreviation merging := (merging passage_key).

Lemma merging_dense acc d dk :
  merging dk [] acc →
  merging (dkey d :: dk) [] (upsert key merge_entry (tag "dense" d) acc).
Proof.
  intros (Hnd & Hdk & Htag). split_and!.
  - by apply upsert_NoDup; [apply merge_entry_key|].
  - intros κ Hκ. apply elem_of_upsert_keys; [apply merge_entry_key|].
    apply elem_of_cons in Hκ as [->|Hκ]; [by left|right; by apply Hdk].
  - rewrite Forall_forall in Htag |- *. intros a' Ha'.
    assert (∀ a, tagged dk [] a → tagged (dkey d :: dk) [] a) as Hmono.
    { intros a [(? & ? & ?)|[(_ & _ & []%elem_of_nil)|(_ & _ & []%elem_of_nil)]].
      left. split_and!; [done|by right|done]. }
    destruct (elem_of_upsert key merge_entry _ _ _ Hnd Ha')
      as [[Ha'' _]|[(a & Ha & Heq & ->)|[-> _]]].
    + by apply Hmono, Htag.
    + specialize (Htag a Ha).
      destruct Htag as [(Hsrc & ? & ?)|[(_ & _ & []%elem_of_nil)|(_ & _ & []%elem_of_nil)]].
      unfold merge_entry. rewrite decide_True by done.
      left. split_and!; [done|by right|done].
    + left. split_and!; [done|left|apply not_elem_of_nil].
Qed.

Lemma merging_sparse acc d dk seen :
  merging dk seen acc →
  merging dk (dkey d :: seen) (upsert key merge_entry (tag "sparse" d) acc).
Proof.
  intros (Hnd & Hdk & Htag). split_and!.
  - by apply upsert_NoDup; [apply merge_entry_key|].
  - intros κ Hκ. apply elem_of_upsert_keys; [apply merge_entry_key|].
    right; by apply Hdk.
  - rewrite Forall_forall in Htag |- *. intros a' Ha'.
    destruct (elem_of_upsert key merge_entry _ _ _ Hnd Ha')
      as [[Ha'' Hne]|[(a & Ha & Heq & ->)|[-> Hnew]]].
    + rewrite result_key_tag in Hne.
      destruct (Htag a' Ha'') as [(? & ? & ?)|[(? & ? & ?)|(? & ? & ?)]].
      * left. split_and!; [done..|]. by apply not_elem_of_cons.
      * right; left. split_and!; [done..|by right].
      * right; right. split_and!; [done..|by right].
    + rewrite result_key_tag in Heq.
      destruct (Htag a Ha) as [(Hs & ? & ?)|[(Hs & ? & ?)|(Hs & ? & ?)]];
        unfold merge_entry; cbn [source tag]; rewrite Hs.
      * rewrite decide_False by done.
        right; left. split_and!; [done|done|]. cbn. rewrite <-Heq. left.
      * rewrite decide_False by done.
        right; left. split_and!; [done|done|]. cbn. rewrite <-Heq. left.
      * rewrite decide_True by done.
        right; right. split_and!; [done|done|]. rewrite Heq. left.
    + right; right. rewrite result_key_tag in *.
      split_and!; [done| |left].
      intros Hin. by apply Hnew, Hdk.
Qed.

Lemma merging_collect_dense acc dk dense :
  merging dk [] acc →
  merging (reverse (dkey <$> dense) ++ dk) []
    (collect_into key merge_entry acc (tag "dense" <$> dense)).
Proof.
  revert acc dk. induction dense as [|d dense IH]; intros acc dk Hm.
  - by rewrite fmap_nil, reverse_nil.
  - rewrite !fmap_cons, collect_into_cons, reverse_cons, <-app_assoc.
    by apply IH, merging_dense.
Qed.

Lemma merging_collect_sparse acc dk seen sparse :
  merging dk seen acc →
  merging dk (reverse (dkey <$> sparse) ++ seen)
    (collect_into key merge_entry acc (tag "sparse" <$> sparse)).
Proof.
  revert acc seen. induction sparse as [|d sparse IH]; intros acc seen Hm.
  - by rewrite fmap_nil, reverse_nil.
  - rewrite !fmap_cons, collect_into_cons, reverse_cons, <-app_assoc.
    by apply IH, merging_sparse.
Qed.

(** The tag of every merged entry. *)
Lemma merge_tagged dense sparse a :
  a ∈ _merge_results passage_key dense sparse →
  tagged (dkey <$> dense) (dkey <$> sparse) a.
Proof.
  unfold _merge_results, collect, collect_into. rewrite foldl_app.
  fold (collect_into key merge_entry [] (tag "dense" <$> dense)).
  match goal with |- context [foldl ?f ?acc (tag "sparse" <$> sparse)] =>
    change (foldl f acc (tag "sparse" <$> sparse))
      with (collect_into key merge_entry acc (tag "sparse" <$> sparse)) end.
  intros Ha.
  assert (merging [] [] []) as H0.
  { split_and!; [constructor|by intros ? ?%elem_of_nil|constructor]. }
  apply merging_collect_dense with (dense := dense) in H0.
  apply merging_collect_sparse with (sparse := sparse) in H0.
  destruct H0 as (_ & _ & Htag). rewrite Forall_forall in Htag.
  specialize (Htag a Ha). rewrite !app_nil_r in Htag.
  unfold tagged in *. by rewrite !elem_of_reverse in Htag.
Qed.
End MergeFacts.

(** ** hybrid_search *)

Section HybridFacts.
Context {Key : Type} `{EqDecision Key}.
Variable passage_key : string → gmap string string → Key.
Variable self : AdvancedRAGPipeline.

Local Abbreviation key := (result_key passage_key).
Local Abbreviation dkey := (doc_key passage_key).

Lemma hybrid_search_Ok query k sparse_results :
  sparse_search self query k = Ok sparse_results →
  hybrid_search passage_key self query k
  = Ok (_merge_results passage_key (vector_store self query k) sparse_results).
Proof. unfold hybrid_search. by intros ->. Qed.

(** With [k >= 1] the sparse side contributes at most [k] documents. *)
Lemma sparse_search_at_most_k query k :
  1 ≤ k →
  length (bm25 self (split query)) = length (documents self) →
  ∃ sparse_results,
    sparse_search self query k = Ok sparse_results
    ∧ length sparse_results ≤ k.
Proof.
  intros Hk Hscores.
  destruct (sparse_search_Ok self query k Hscores) as (sparse_results & Hs & Hall).
  exists sparse_results. split; [done|].
  apply Forall2_length in Hall.
  pose proof (sparse_indices_length self query k Hk). lia.
Qed.

Lemma hybrid_search_length query k :
  1 ≤ k →
  length (vector_store self query k) ≤ k →
  length (bm25 self (split query)) = length (documents self) →
  ∃ combined,
    hybrid_search passage_key self query k = Ok combined
    ∧ length combined ≤ 2 * k.
Proof.
  intros Hk Hdense Hscores.
  destruct (sparse_search_at_most_k query k Hk Hscores)
    as (sparse_results & Hs & Hlen).
  eexists. split; [by apply hybrid_search_Ok|].
  etrans; [apply merge_length|]. lia.
Qed.

(** C3. For every query and every [k >= 1] (the dense index returning
    at most [k] candidates and the BM25 index one score per document),
    [hybrid_search] returns a sequence of at most [2k] results in which
    no two have the same passage identity; the identities are those of
    the dense and of the sparse candidates, and a passage of both lists
    is a single entry tagged [hybrid]. *)
Theorem hybrid_search_no_duplicates (query : string) (k : nat) :
  1 ≤ k →
  length (vector_store self query k) ≤ k →
  length (bm25 self (split query)) = length (documents self) →
  ∃ sparse_results combined,
    sparse_search self query k = Ok sparse_results
    ∧ hybrid_search passage_key self query k = Ok combined
    ∧ length combined ≤ 2 * k
    ∧ NoDup (key <$> combined)
    ∧ (∀ κ, κ ∈ key <$> combined
            ↔ κ ∈ dkey <$> vector_store self query k
              ∨ κ ∈ dkey <$> sparse_results)
    ∧ (∀ r, r ∈ combined →
            key r ∈ dkey <$> vector_store self query k →
            key r ∈ dkey <$> sparse_results →
            source r = "hybrid").
Proof.
  intros Hk Hdense Hscores.
  destruct (sparse_search_at_most_k query k Hk Hscores)
    as (sparse_results & Hs & Hlen).
  exists sparse_results,
    (_merge_results passage_key (vector_store self query k) sparse_results).
  split_and!.
  - done.
  - by apply hybrid_search_Ok.
  - etrans; [apply merge_length|]. lia.
  - apply merge_NoDup.
  - intros κ. apply merge_keys.
  - intros r Hr Hd Hsp.
    destruct (merge_tagged passage_key _ _ r Hr)
      as [(_ & _ & Hn)|[(Hsrc & _ & _)|(_ & Hn & _)]]; done.
Qed.

(** C8. If the dense index returns nothing and the lexical index
    returns [n] passages (of pairwise distinct identities),
    [hybrid_search] returns exactly those [n], in their order, each
    tagged [sparse]; if the lexical index returns nothing either, it
    returns the empty sequence, and no exception. *)
Theorem hybrid_search_dense_empty (query : string) (k : nat)
    (sparse_results : list Document) :
  vector_store self query k = [] →
  sparse_search self query k = Ok sparse_results →
  NoDup (dkey <$> sparse_results) →
  ∃ combined,
    hybrid_search passage_key self query k = Ok combined
    ∧ combined = tag "sparse" <$> sparse_results
    ∧ length combined = length sparse_results
    ∧ Forall (λ r, source r = "sparse") combined
    ∧ (sparse_results = [] → combined = []).
Proof.
  intros Hdense Hsparse Hnd.
  exists (tag "sparse" <$> sparse_results). split_and!.
  - rewrite (hybrid_search_Ok _ _ _ Hsparse), Hdense.
    unfold _merge_results. cbn [fmap list_fmap app].
    f_equal. apply collect_fresh.
    rewrite <-list_fmap_compose. exact Hnd.
  - done.
  - apply length_fmap.
  - apply Forall_fmap, Forall_true. done.
  - by intros ->.
Qed.
End HybridFacts.

(** ** The order of the sparse candidates *)

Section SortedLex.
Context {A : Type} (key : A → Q) (sec : A → A → Prop).

Lemma Qlt_bool_lt a b : Qlt_bool a b = true → (a < b)%Q.
Proof.
  unfold Qlt_bool. intros Hb%negb_true_iff.
  apply Qnot_le_lt. intros Hle%Qle_bool_iff. congruence.
Qed.

Lemma key_then_le a b : key_then key sec a b → (key b <= key a)%Q.
Proof. intros [Hlt|[Heq _]]; apply Qle_lteq; tauto. Qed.

Lemma insert_desc_lex x l :
  Forall (sec x) l →
  StronglySorted (key_then key sec) l →
  StronglySorted (key_then key sec) (insert_desc key x l).
Proof.
  intros Hsec Hs. induction Hs as [|y l Hs IH Hy]; cbn [insert_desc].
  - repeat constructor.
  - apply Forall_cons in Hsec as [Hxy Hsec].
    destruct (Qlt_bool (key x) (key y)) eqn:Hb.
    + constructor; [by apply IH|].
      rewrite insert_desc_Permutation. constructor; [|done].
      left. by apply Qlt_bool_lt.
    + apply Qlt_bool_false in Hb.
      constructor; [by constructor|].
      assert (∀ z, sec x z → (key z <= key x)%Q → key_then key sec x z) as Hle.
      { intros z Hz [Hlt|Heq]%Qle_lteq; [by left|by right]. }
      constructor; [by apply Hle|].
      rewrite Forall_forall in Hy, Hsec |- *. intros z Hz.
      apply Hle; [by apply Hsec|].
      apply Qle_trans with (key y); [|done].
      by apply key_then_le, Hy.
Qed.

(** A stable sort orders equal keys as the input has them. *)
Lemma sorted_reverse_lex l :
  StronglySorted sec l → StronglySorted (key_then key sec) (sorted_reverse key l).
Proof.
  induction 1 as [|x l Hs IH Hx]; cbn [sorted_reverse foldr]; [constructor|].
  apply insert_desc_lex; [|done].
  fold (sorted_reverse key l). by rewrite sorted_reverse_Permutation.
Qed.
End SortedLex.

Section SparseOrder.
Variable self : AdvancedRAGPipeline.

Lemma StronglySorted_drop {A} (R : relation A) n l :
  StronglySorted R l → StronglySorted R (drop n l).
Proof.
  intros Hs. rewrite <-(take_drop n l) in Hs.
  by apply StronglySorted_app in Hs as (_ & _ & ?).
Qed.

Lemma StronglySorted_reverse {A} (R : relation A) l :
  StronglySorted R l → StronglySorted (flip R) (reverse l).
Proof.
  induction 1 as [|x l Hs IH Hx]; [constructor|].
  rewrite reverse_cons. apply StronglySorted_app_2; [|done|repeat constructor].
  intros x1 x2 Hx1 ->%list_elem_of_singleton.
  rewrite elem_of_reverse in Hx1.
  rewrite Forall_forall in Hx. by apply Hx.
Qed.

Lemma StronglySorted_impl {A} (R1 R2 : relation A) l :
  (∀ x y, R1 x y → R2 x y) → StronglySorted R1 l → StronglySorted R2 l.
Proof.
  intros HR. induction 1 as [|x l Hs IH Hx]; constructor; [done|].
  eapply Forall_impl; [exact Hx|]. intros y. apply HR.
Qed.

Lemma StronglySorted_seq start n : StronglySorted lt (seq start n).
Proof.
  revert start. induction n as [|n IH]; intros start; cbn; constructor; [done|].
  apply Forall_forall. intros j Hj%elem_of_seq. lia.
Qed.

(** [np.argsort]: ascending by score, equal scores by ascending index. *)
Lemma argsort_sorted a :
  StronglySorted (flip (score_then_later a)) (argsort a).
Proof.
  pose proof (sorted_reverse_lex (λ i, - a !!! i)%Q lt _
                (StronglySorted_seq 0 (length a))) as Hs.
  eapply StronglySorted_impl; [|exact Hs]. clear Hs.
  intros i j [Hlt|[Heq Hij]]; unfold flip, score_then_later.
  - left. apply Qopp_lt_compat in Hlt. by rewrite !Qopp_involutive in Hlt.
  - right. split; [|done].
    rewrite <-(Qopp_involutive (a !!! i)), <-(Qopp_involutive (a !!! j)).
    by rewrite Heq.
Qed.

(** The selection is the first [k] of the whole corpus ranked that way. *)
Lemma sparse_indices_top_k query k :
  1 ≤ k →
  ∃ ranking,
    ranking ≡ₚ seq 0 (length (bm25 self (split query)))
    ∧ StronglySorted (score_then_later (bm25 self (split query))) ranking
    ∧ sparse_indices self query k = take k ranking.
Proof.
  intros Hk. exists (reverse (argsort (bm25 self (split query)))). split_and!.
  - rewrite reverse_Permutation. apply argsort_Permutation.
  - apply (StronglySorted_reverse (flip (score_then_later _))), argsort_sorted.
  - unfold sparse_indices. destruct k as [|k]; [lia|].
    cbn [slice_last]. by rewrite take_reverse.
Qed.
End SparseOrder.

(** ** _deduplicate *)

Section DeduplicateFacts.
Context {Key : Type} `{EqDecision Key}.
Variable passage_key : string → gmap string string → Key.

Local Abbreviation key := (result_key passage_key).

Lemma best_entry_cases a r :
  (best_entry a r = a ∧ (score r <= score a)%Q)
  ∨ (best_entry a r = r ∧ (score a <= score r)%Q).
Proof.
  unfold best_entry. destruct (Qlt_bool (score a) (score r)) eqn:Hb.
  - right. split; [done|]. by apply Qlt_bool_true.
  - left. split; [done|]. by apply Qlt_bool_false.
Qed.

Lemma best_entry_key a r : key a = key r → key (best_entry a r) = key a.
Proof. intros Heq. by destruct (best_entry_cases a r) as [[-> _]|[-> _]]. Qed.

Local Abbreviation covered := (covered passage_key).

Lemma covered_refl x : covered x x.
Proof. split; [done|apply Qle_refl]. Qed.

Lemma covered_trans x y z : covered x y → covered y z → covered x z.
Proof.
  intros [Hk1 Hs1] [Hk2 Hs2]. split; [congruence|].
  by apply Qle_trans with (score y).
Qed.

Lemma upsert_best_covers x r acc :
  x ∈ r :: acc →
  ∃ a', a' ∈ upsert key best_entry r acc ∧ covered x a'.
Proof.
  intros Hx.
  destruct (upsert_covers key best_entry x r acc Hx)
    as (a' & Ha' & [->|(a & Ha & Heq & Hxa & ->)]).
  - exists x. split; [done|apply covered_refl].
  - exists (best_entry a r). split; [done|].
    split; [rewrite best_entry_key by done; by destruct Hxa as [->| ->]|].
    destruct (best_entry_cases a r) as [[-> Hle]|[-> Hle]],
      Hxa as [->| ->]; done || apply Qle_refl.
Qed.

Lemma upsert_best_elem a' r acc :
  a' ∈ upsert key best_entry r acc → a' ∈ r :: acc.
Proof.
  induction acc as [|a acc IH]; cbn [upsert]; [done|].
  case_decide as Heq.
  - intros [->|Hin]%elem_of_cons.
    + destruct (best_entry_cases a r) as [[-> _]|[-> _]];
        [right; left|left].
    + right; by right.
  - intros [->|Hin]%elem_of_cons; [right; left|].
    apply IH, elem_of_cons in Hin as [->|Hin]; [left|right; by right].
Qed.

Lemma collect_best_elem a acc l :
  a ∈ collect_into key best_entry acc l → a ∈ acc ∨ a ∈ l.
Proof.
  revert acc. induction l as [|r l IH]; intros acc; [by left|].
  rewrite collect_into_cons. intros [Hin|Hin]%IH.
  - apply upsert_best_elem, elem_of_cons in Hin as [->|Hin];
      [right; left|by left].
  - right; by right.
Qed.

Lemma collect_best_covers x acc l :
  x ∈ acc ∨ x ∈ l →
  ∃ a, a ∈ collect_into key best_entry acc l ∧ covered x a.
Proof.
  revert x acc. induction l as [|r l IH]; intros x acc Hx.
  - destruct Hx as [Hx|Hx%elem_of_nil]; [|done].
    exists x. split; [done|apply covered_refl].
  - rewrite collect_into_cons.
    assert (x ∈ r :: acc ∨ x ∈ l) as [Hx'|Hx'].
    { destruct Hx as [Hx|[->|Hx]%elem_of_cons];
        [left; by right|left; left|by right]. }
    + destruct (upsert_best_covers x r acc Hx') as (a' & Ha' & Hcov).
      destruct (IH a' (upsert key best_entry r acc)) as (a & Ha & Hcov');
        [by left|].
      exists a. split; [done|by eapply covered_trans].
    + apply IH. by right.
Qed.

Variable self : AdvancedRAGPipeline.

(** C4. In [retrieve], the pool of the per-sub-query results goes
    through the global deduplication, which keeps one entry per
    passage identity: an occurrence from the pool whose re-rank score
    is at least that of every occurrence of the passage, so of a
    passage surfaced with two scores the higher-scored occurrence and
    no other. *)
Theorem deduplicate_keeps_higher_score (sub_queries : list string)
    (all_results : list RetrievalResult) :
  retrieve_loop passage_key self sub_queries [] = Ok all_results →
  ∃ unique_results,
    unique_results = _deduplicate passage_key all_results
    ∧ retrieve_sub_queries passage_key self sub_queries
      = Ok (take 10 unique_results)
    ∧ NoDup (key <$> unique_results)
    ∧ (∀ a, a ∈ unique_results → a ∈ all_results)
    ∧ (∀ r, r ∈ all_results →
         ∃ a, a ∈ unique_results ∧ key a = key r
              ∧ (score r <= score a)%Q).
Proof.
  intros Hpool. exists (_deduplicate passage_key all_results). split_and!.
  - done.
  - unfold retrieve_sub_queries. by rewrite Hpool.
  - apply collect_NoDup, best_entry_key.
  - intros a [Ha%elem_of_nil|Ha]%collect_best_elem; done.
  - intros r Hr.
    destruct (collect_best_covers r [] all_results) as (a & Ha & Hk & Hs);
      [by right|].
    by exists a.
Qed.
End DeduplicateFacts.

(** ** compare_across_years *)

Section CompareFacts.
Context {Key : Type} `{EqDecision Key}.
Variable passage_key : string → gmap string string → Key.
Variable self : AdvancedRAGPipeline.

Local Abbreviation search year_query :=
  (hybrid_search passage_key self year_query 5).

Lemma compare_loop_Ok query years m0 :
  Forall (λ year, ∃ results, search (filtered_query query year) = Ok results)
    years →
  ∃ m, compare_loop passage_key self query years m0 = Ok m
       ∧ ∀ year,
           (year ∈ years →
              ∃ results, m !! year = Some results
                         ∧ search (filtered_query query year) = Ok results)
           ∧ (year ∉ years → m !! year = m0 !! year).
Proof.
  revert m0. induction years as [|y years IH]; intros m0 Hall.
  - exists m0. split; [done|]. intros year. split; [|done].
    by intros ?%elem_of_nil.
  - apply Forall_cons in Hall as [(results & Hy) Hall].
    destruct (IH (<[y := results]> m0) Hall) as (m & Hm & Hlook).
    exists m. split; [cbn [compare_loop]; by rewrite Hy|].
    intros year. destruct (Hlook year) as [Hin Hout]. split.
    + intros Hyear. destruct (decide (year ∈ years)) as [Hdec|Hdec];
        [by apply Hin|].
      apply elem_of_cons in Hyear as [->|Hyear]; [|done].
      exists results. split; [|done].
      rewrite Hout by done. apply lookup_insert_eq.
    + intros [Hne Hnin]%not_elem_of_cons.
      rewrite Hout by done. by apply lookup_insert_ne.
Qed.

(** C6, as the code has it. For every query and list of axis values
    (the dense index returning at most 5 candidates and the BM25 index
    one score per document), [compare_across_years] returns a mapping
    with exactly the supplied axis values as keys; the entry of an axis
    value is what [hybrid_search] alone returns for the axis-qualified
    query with [k = 5]: no re-ranking pass, and at most 10 results. *)
Theorem compare_across_years_entries (query : string) (years : list string) :
  Forall (λ year,
    length (vector_store self (filtered_query query year) 5) ≤ 5
    ∧ length (bm25 self (split (filtered_query query year)))
      = length (documents self)) years →
  ∃ results_by_year,
    compare_across_years passage_key self query years = Ok results_by_year
    ∧ dom results_by_year = list_to_set (C := gset string) years
    ∧ ∀ year, year ∈ years →
        ∃ results, results_by_year !! year = Some results
                   ∧ search (filtered_query query year) = Ok results
                   ∧ length results ≤ 10.
Proof.
  intros Hall.
  assert (Forall (λ year, ∃ results,
            search (filtered_query query year) = Ok results
            ∧ length results ≤ 10) years) as Hsearch.
  { eapply Forall_impl; [exact Hall|]. intros year [Hd Hs].
    destruct (hybrid_search_length passage_key self
                (filtered_query query year) 5) as (results & Hr & Hlen);
      [lia|done|done|].
    exists results. split; [done|lia]. }
  destruct (compare_loop_Ok query years ∅) as (m & Hm & Hlook).
  { eapply Forall_impl; [exact Hsearch|]. intros year (results & ? & _).
    by exists results. }
  exists m. split_and!.
  - done.
  - apply set_eq. intros year.
    rewrite elem_of_dom, elem_of_list_to_set.
    destruct (Hlook year) as [Hin Hout]. split.
    + intros Hsome. destruct (decide (year ∈ years)) as [|Hnin]; [done|].
      rewrite Hout, lookup_empty in Hsome by done.
      by destruct Hsome.
    + intros (results & -> & _)%Hin. by eexists.
  - intros year Hyear.
    destruct (Hlook year) as [Hin _].
    destruct (Hin Hyear) as (results & Hr & Hs).
    exists results. split_and!; [done..|].
    rewrite Forall_forall in Hsearch.
    destruct (Hsearch year Hyear) as (results' & Hs' & Hlen).
    congruence.
Qed.
End CompareFacts.

(** ** decompose_query and retrieve *)

Section RetrieveFacts.
Context {Key : Type} `{EqDecision Key}.
Variable passage_key : string → gmap string string → Key.

(** C1, on the code: [decompose_query] never returns a sequence of
    sub-queries, and has no fallback to the original query: whatever
    the query, it raises [NameError] for the unassigned
    [sub_queries]. *)
Theorem decompose_query_raises (query : string) :
  decompose_query query = Raise (NameError "sub_queries")
  ∧ decompose_query query ≠ Ok [query].
Proof. split; [done|]. discriminate. Qed.

(** C5, on the code: for every pipeline, query and strategy,
    [retrieve] raises the [NameError] of [decompose_query] before any
    search is made, and returns no sequence of results. *)
Theorem retrieve_raises (self : AdvancedRAGPipeline) (query strategy : string) :
  retrieve passage_key self query strategy = Raise (NameError "sub_queries")
  ∧ ∀ results, retrieve passage_key self query strategy ≠ Ok results.
Proof. split; [done|]. discriminate. Qed.

(** C10. The [strategy] argument is never read: any two strategy
    strings give [retrieve] the same outcome, so an unsupported
    strategy is treated like ["hybrid"] and not rejected. *)
Theorem retrieve_ignores_strategy (self : AdvancedRAGPipeline)
    (query s1 s2 : string) :
  retrieve passage_key self query s1 = retrieve passage_key self query s2
  ∧ retrieve passage_key self query s1 = retrieve passage_key self query "hybrid".
Proof. split; reflexivity. Qed.

End RetrieveFacts.

(** ** Any ascending argsort *)

Section ArgsortFacts.

Lemma Qopp_le_iff (x y : Q) : (- y <= - x)%Q ↔ (x <= y)%Q.
Proof.
  split; [|apply Qopp_le_compat].
  intros H%Qopp_le_compat. by rewrite !Qopp_involutive in H.
Qed.

Lemma sorted_reverse_ascending (a : list Q) l :
  StronglySorted (λ i j, (a !!! i <= a !!! j)%Q)
    (sorted_reverse (λ i, - (a !!! i))%Q l).
Proof.
  eapply StronglySorted_impl; [|apply sorted_reverse_sorted].
  intros i j. unfold key_ge. apply Qopp_le_iff.
Qed.

Lemma argsort_ascending : ascending_argsort argsort.
Proof.
  intros a. split; [apply sorted_reverse_Permutation|].
  apply sorted_reverse_ascending.
Qed.

Lemma argsort_ties_descending_ascending :
  ascending_argsort argsort_ties_descending.
Proof.
  intros a. split; [|apply sorted_reverse_ascending].
  unfold argsort_ties_descending.
  by rewrite sorted_reverse_Permutation, reverse_Permutation.
Qed.

Lemma untied_bool_true a i : untied_bool a i = true → untied a i.
Proof.
  unfold untied_bool. rewrite forallb_forall. intros Hall j Hj Heq.
  specialize (Hall j). rewrite <-list_elem_of_In, elem_of_seq in Hall.
  apply orb_true_iff in Hall as [Hji%Nat.eqb_eq|Hne%negb_true_iff];
    [done| |lia].
  apply Qeq_bool_iff in Heq. congruence.
Qed.

Lemma filter_all {A} (P : A → Prop) `{∀ x, Decision (P x)} l :
  Forall P l → filter P l = l.
Proof.
  induction 1 as [|x l Hx _ IH]; [done|].
  by rewrite filter_cons_True, IH.
Qed.

Lemma filter_none {A} (P : A → Prop) `{∀ x, Decision (P x)} l :
  Forall (λ x, ¬ P x) l → filter P l = [].
Proof.
  induction 1 as [|x l Hx _ IH]; [done|].
  by rewrite filter_cons_False.
Qed.

Lemma Qlt_bool_iff x y : Qlt_bool x y = true ↔ (x < y)%Q.
Proof.
  split; [apply Qlt_bool_lt|].
  intros Hlt. unfold Qlt_bool. apply negb_true_iff.
  destruct (Qle_bool y x) eqn:Hle; [|done].
  apply Qle_bool_iff in Hle. by apply Qle_not_lt in Hle.
Qed.

(** An index whose score is tied with no other sits, in every
    ascending order of the indices, at the position that counts the
    lower scores. *)
Lemma untied_position (a : list Q) l p i :
  l ≡ₚ seq 0 (length a) →
  StronglySorted (λ i j, (a !!! i <= a !!! j)%Q) l →
  l !! p = Some i →
  untied a i →
  p = length (filter (λ j, Qlt_bool (a !!! j) (a !!! i) = true)
                (seq 0 (length a))).
Proof.
  intros Hperm Hs Hp Hun.
  assert (NoDup l) as Hnd by (rewrite Hperm; apply NoDup_seq).
  rewrite <-Hperm. rewrite <-(take_drop_middle l p i Hp) in Hs, Hnd |- *.
  apply StronglySorted_app in Hs as (Hcross & _ & Hs).
  apply StronglySorted_inv in Hs as [_ Hafter].
  apply NoDup_app in Hnd as (_ & Hdisj & _).
  rewrite filter_app, filter_cons_False, filter_all, filter_none.
  - rewrite app_nil_r, length_take. apply lookup_lt_Some in Hp. lia.
  - eapply Forall_impl; [exact Hafter|]. cbn. intros j Hle.
    rewrite Qlt_bool_iff. by apply Qle_not_lt.
  - apply Forall_forall. intros j Hj. apply Qlt_bool_iff.
    assert (a !!! j <= a !!! i)%Q as Hle by (apply Hcross; [done|left]).
    apply Qle_lteq in Hle as [Hlt|Heq]; [done|].
    exfalso. apply (Hdisj j Hj).
    assert (j = i) as ->; [|left].
    apply Hun; [|done].
    assert (j ∈ seq 0 (length a)) as Hin.
    { rewrite <-Hperm, <-(take_drop p l). apply elem_of_app. by left. }
    apply elem_of_seq in Hin. lia.
  - rewrite Qlt_bool_iff. apply Qlt_irrefl.
Qed.

Section TwoArgsorts.
Variables np1 np2 : list Q → list nat.
Hypothesis ascending1 : ascending_argsort np1.
Hypothesis ascending2 : ascending_argsort np2.

Lemma ascending_lookup_untied a p i :
  np1 a !! p = Some i → untied a i → np2 a !! p = Some i.
Proof.
  intros Hp Hun.
  destruct (ascending1 a) as [Hperm1 Hs1], (ascending2 a) as [Hperm2 Hs2].
  assert (i ∈ np2 a) as [p' Hp']%list_elem_of_lookup_1.
  { rewrite Hperm2, <-Hperm1. by eapply list_elem_of_lookup_2. }
  by rewrite (untied_position a _ p i Hperm1 Hs1 Hp Hun),
    <-(untied_position a _ p' i Hperm2 Hs2 Hp' Hun).
Qed.

Lemma ascending_length a : length (np1 a) = length (np2 a).
Proof.
  destruct (ascending1 a) as [Hperm1 _], (ascending2 a) as [Hperm2 _].
  by rewrite Hperm1, Hperm2.
Qed.

Lemma drop_untied a m :
  Forall (untied a) (drop m (np1 a)) → drop m (np2 a) = drop m (np1 a).
Proof.
  intros Hun. apply list_eq. intros q. rewrite !lookup_drop.
  destruct (np1 a !! (m + q)) as [i|] eqn:Hq.
  - apply ascending_lookup_untied; [done|].
    rewrite Forall_forall in Hun. apply Hun.
    apply list_elem_of_lookup. exists q. by rewrite lookup_drop.
  - apply lookup_ge_None in Hq. apply lookup_ge_None.
    by rewrite <-ascending_length.
Qed.

(** A selection without tied scores is the same whatever the argsort. *)
Lemma top_k_untied a k :
  Forall (untied a) (top_k_indices np1 a k) →
  top_k_indices np2 a k = top_k_indices np1 a k.
Proof.
  unfold top_k_indices. rewrite Forall_reverse. intros Hun. f_equal.
  destruct k as [|k]; cbn [slice_last] in *.
  - apply (drop_untied a 0 Hun).
  - rewrite <-ascending_length. by apply drop_untied.
Qed.
End TwoArgsorts.

(** Every selection lists its candidates by non-increasing score. *)
Lemma top_k_sorted np_argsort a k :
  ascending_argsort np_argsort →
  StronglySorted (λ i j, (a !!! j <= a !!! i)%Q) (top_k_indices np_argsort a k).
Proof.
  intros Hasc. destruct (Hasc a) as [_ Hs].
  apply (StronglySorted_reverse (λ i j, (a !!! i <= a !!! j)%Q)).
  destruct k as [|k]; cbn [slice_last]; [done|].
  by apply StronglySorted_drop.
Qed.

(** The order that lists lower scores first and, of equal scores, the
    larger index first. *)
Local Abbreviation ascending_then_later a :=
  (λ i j : nat, (a !!! i < a !!! j)%Q ∨ ((a !!! i == a !!! j)%Q ∧ j < i)).

Lemma argsort_ties_descending_sorted a :
  StronglySorted (ascending_then_later a) (argsort_ties_descending a).
Proof.
  assert (StronglySorted (flip lt) (reverse (seq 0 (length a)))) as Hseq
    by apply (StronglySorted_reverse lt), StronglySorted_seq.
  pose proof (sorted_reverse_lex (λ i, - a !!! i)%Q (flip lt) _ Hseq) as Hs.
  eapply StronglySorted_impl; [|exact Hs]. clear.
  intros i j [Hlt|[Heq Hij]].
  - left. apply Qopp_lt_compat in Hlt. by rewrite !Qopp_involutive in Hlt.
  - right. split; [|done].
    rewrite <-(Qopp_involutive (a !!! i)), <-(Qopp_involutive (a !!! j)).
    by rewrite Heq.
Qed.

Lemma StronglySorted_lookup_impl {A} (R1 R2 : relation A) l :
  StronglySorted R1 l →
  (∀ p q x y, p < q → l !! p = Some x → l !! q = Some y → R1 x y → R2 x y) →
  StronglySorted R2 l.
Proof.
  induction 1 as [|x l Hs IH Hx]; intros Himpl; constructor.
  - apply IH. intros p q x' y' Hpq Hp Hq. apply (Himpl (S p) (S q)); [lia|done..].
  - rewrite Forall_forall in Hx |- *. intros y Hy.
    destruct (list_elem_of_lookup_1 _ _ Hy) as [q Hq].
    apply (Himpl 0 (S q)); [lia|done|done|by apply Hx].
Qed.

(** The selection of the whole corpus has its ties in corpus order only
    if the argsort lists equal scores by descending index. *)
Lemma ties_in_corpus_order_descending np_argsort a :
  ascending_argsort np_argsort →
  ties_in_corpus_order a (top_k_indices np_argsort a 0) →
  np_argsort a = argsort_ties_descending a.
Proof.
  intros Hasc Hties. destruct (Hasc a) as [Hperm Hs].
  unfold top_k_indices in Hties. cbn [slice_last] in Hties.
  apply (StronglySorted_unique_strong (ascending_then_later a)).
  - intros i j _ _ [Hlt|[Heq Hij]] [Hlt'|[Heq' Hji]].
    + exfalso. apply (Qlt_irrefl (a !!! i)). by apply Qlt_trans with (a !!! j).
    + exfalso. rewrite Heq' in Hlt. by apply Qlt_irrefl in Hlt.
    + exfalso. rewrite Heq in Hlt'. by apply Qlt_irrefl in Hlt'.
    + lia.
  - eapply StronglySorted_lookup_impl; [exact Hs|].
    intros p q i j Hpq Hp Hq Hle.
    apply Qle_lteq in Hle as [Hlt|Heq]; [by left|right].
    split; [done|].
    pose proof (lookup_lt_Some _ _ _ Hp) as Hp'.
    pose proof (lookup_lt_Some _ _ _ Hq) as Hq'.
    apply (Hties (length (np_argsort a) - S q) (length (np_argsort a) - S p)).
    + apply reverse_lookup_Some. split; [|lia].
      by replace (length (np_argsort a) - S (length (np_argsort a) - S q))
        with q by lia.
    + apply reverse_lookup_Some. split; [|lia].
      by replace (length (np_argsort a) - S (length (np_argsort a) - S p))
        with p by lia.
    + lia.
    + by symmetry.
  - apply argsort_ties_descending_sorted.
  - destruct (argsort_ties_descending_ascending a) as [Hperm' _].
    by rewrite Hperm, Hperm'.
Qed.
End ArgsortFacts.

(** ** Retrieval over any ascending argsort *)

Section RetrieveOverArgsort.
Context {Key : Type} `{EqDecision Key}.
Variable passage_key : string → gmap string string → Key.
Variable self : AdvancedRAGPipeline.

(** With the stable [argsort] the methods are those of the pipeline as
    modelled above. *)
Lemma hybrid_search_with_argsort query k :
  hybrid_search_with passage_key argsort self query k
  = hybrid_search passage_key self query k.
Proof. reflexivity. Qed.

Lemma retrieve_loop_with_argsort sub_queries all_results :
  retrieve_loop_with passage_key argsort self sub_queries all_results
  = retrieve_loop passage_key self sub_queries all_results.
Proof.
  revert all_results.
  induction sub_queries as [|sq sub_queries IH]; intros all_results; [done|].
  cbn [retrieve_loop_with retrieve_loop]. rewrite hybrid_search_with_argsort.
  destruct (hybrid_search passage_key self sq 20) as [results|e]; [|done].
  cbn [mbind result_bind]. apply IH.
Qed.

Lemma retrieve_sub_queries_with_argsort sub_queries :
  retrieve_sub_queries_with passage_key argsort self sub_queries
  = retrieve_sub_queries passage_key self sub_queries.
Proof.
  unfold retrieve_sub_queries_with, retrieve_sub_queries.
  by rewrite retrieve_loop_with_argsort.
Qed.

Variables np1 np2 : list Q → list nat.
Hypothesis ascending1 : ascending_argsort np1.
Hypothesis ascending2 : ascending_argsort np2.

(** The candidates the sparse step of [np1] takes for [query] have no
    tied score. *)
Local Abbreviation selection_untied query k :=
  (Forall (untied (bm25 self (split query)))
     (sparse_indices_with np1 self query k)).

Lemma sparse_indices_with_untied query k :
  selection_untied query k →
  sparse_indices_with np2 self query k = sparse_indices_with np1 self query k.
Proof. by apply top_k_untied. Qed.

Lemma hybrid_search_with_untied query k :
  selection_untied query k →
  hybrid_search_with passage_key np2 self query k
  = hybrid_search_with passage_key np1 self query k.
Proof.
  intros Hun. unfold hybrid_search_with, sparse_search_with.
  by rewrite sparse_indices_with_untied.
Qed.

Lemma retrieve_loop_with_untied sub_queries all_results :
  Forall (λ sq, selection_untied sq 20) sub_queries →
  retrieve_loop_with passage_key np2 self sub_queries all_results
  = retrieve_loop_with passage_key np1 self sub_queries all_results.
Proof.
  intros Hall. revert all_results.
  induction Hall as [|sq sub_queries Hsq _ IH]; intros all_results; [done|].
  cbn [retrieve_loop_with]. rewrite hybrid_search_with_untied by done.
  destruct (hybrid_search_with passage_key np1 self sq 20) as [results|e];
    [|done].
  cbn [mbind result_bind]. apply IH.
Qed.

End RetrieveOverArgsort.

Lemma Forall_untied_bool a l :
  forallb (untied_bool a) l = true → Forall (untied a) l.
Proof.
  rewrite forallb_forall, Forall_forall. intros Hall i Hi.
  by apply untied_bool_true, Hall, list_elem_of_In.
Qed.


(** ** Citations *)

(** [analyze_risks] returns, for each year of [compare_across_years],
    one [risk_entry] per result. *)
Lemma analyze_risks_entries {Key : Type} `{EqDecision Key}
    (passage_key : string → gmap string string → Key)
    (self : AdvancedRAGPipeline) (tkr : string) (years : list string)
    (results_by_year : gmap string (list RetrievalResult)) :
  compare_across_years passage_key self
    ("What are the key business risks for " ++ tkr ++ "?")%string years
  = Ok results_by_year →
  ∃ risk_analysis,
    analyze_risks passage_key self tkr years = Ok risk_analysis
    ∧ ∀ yr, risk_analysis !! yr
            = fmap (risk_entry tkr yr) <$> results_by_year !! yr.
Proof.
  intros Hcmp. eexists. split.
  - unfold analyze_risks. rewrite Hcmp. reflexivity.
  - intros yr. rewrite map_lookup_imap.
    by destruct (results_by_year !! yr).
Qed.

(** C9. For every surfaced result, whatever its metadata, the citation
    is built and no exception is raised: [section] and [url] are what the
    metadata holds under ["section"] and ["source_url"], so a result
    whose metadata lacks one of the keys gets the null marker [None] in
    that field. The citation is a function of the result's metadata, the
    ticker and the year alone, the source type being the constant
    ["10-K"]. *)
Theorem citation_of_missing_metadata (tkr yr : string) (result : RetrievalResult) :
  let c := citation (risk_entry tkr yr result) in
  section c = metadata result !! "section"
  ∧ url c = metadata result !! "source_url"
  ∧ (metadata result !! "section" = None → section c = None)
  ∧ (metadata result !! "source_url" = None → url c = None)
  ∧ source_type c = "10-K" ∧ ticker c = tkr ∧ year c = yr
  ∧ ∀ result', metadata result' = metadata result →
      citation (risk_entry tkr yr result') = c.
Proof.
  intros c. split_and!; try done.
  intros result' Hmeta. unfold c, risk_entry. cbn. by rewrite Hmeta.
Qed.

(** * The sample corpus: instances and counterexamples *)

(** The specification's scenario for the global deduplication: one
    passage surfaced with re-rank scores 0.9 and 0.4, in either order. *)
Example deduplicate_scenario :
  let p s := {| content := "supply chain risk 2021"; metadata := ∅;
                score := s; source := "hybrid" |} in
  _deduplicate locator_key [p (9 # 10); p (4 # 10)]%Q = [p (9 # 10)%Q]
  ∧ _deduplicate locator_key [p (4 # 10); p (9 # 10)]%Q = [p (9 # 10)%Q].
Proof. split; reflexivity. Qed.

(** Lines 99-102 deduplicate and truncate; nothing sorts the pool. On
    the sub-queries ["alpha"] and ["supply chain risk"] the scores come
    out in the order of the sub-queries. *)
Example retrieve_sub_queries_unsorted :
  ∃ results,
    retrieve_sub_queries locator_key acme ["alpha"; "supply chain risk"]
    = Ok results
    ∧ score <$> results
      = [3 # 10; 1 # 10; 1 # 10; 1 # 10; 1 # 10;
         3 # 10; 3 # 10; 3 # 10; 3 # 10]%Q
    ∧ ¬ StronglySorted (key_ge score) results.
Proof.
  eexists. split; [vm_compute; reflexivity|]. split; [reflexivity|].
  intros Hs. apply StronglySorted_inv in Hs as [Hs _].
  apply StronglySorted_inv in Hs as [_ Hall].
  do 3 apply Forall_cons in Hall as [_ Hall].
  apply Forall_cons in Hall as [Hbad _].
  unfold key_ge in Hbad. vm_compute in Hbad. by apply Hbad.
Qed.

Lemma rerank_sorted_permutation_witness :
  let h := tag "dense" <$> take 3 acme_corpus in
  let results := [0; 1; 2] in
  let h' := (rerank acme h "alpha beta" results).1 in
  let out := (rerank acme h "alpha beta" results).2 in
  Forall (λ r, r < length h) results
  ∧ length (reranker acme (rerank_pairs h "alpha beta" results)) = length results
  ∧ out = [1; 0; 2]
  ∧ out ≡ₚ results
  ∧ StronglySorted (λ a b, score (h' !!! b) <= score (h' !!! a))%Q out.
Proof.
  intros h results h' out.
  assert (Forall (λ r, r < length h) results) as Hlive
    by (repeat constructor).
  assert (length (reranker acme (rerank_pairs h "alpha beta" results))
          = length results) as Hlen by (vm_compute; reflexivity).
  destruct (rerank_sorted_permutation acme h "alpha beta" results Hlive Hlen)
    as (Hperm & _ & Hsorted & _).
  split_and!; [exact Hlive|exact Hlen|vm_compute; reflexivity|exact Hperm|exact Hsorted].
Defined.

Lemma hybrid_search_no_duplicates_witness :
  1 ≤ 6
  ∧ length (vector_store acme "supply chain risk" 6) ≤ 6
  ∧ length (bm25 acme (split "supply chain risk")) = length (documents acme)
  ∧ ∃ sparse_results combined,
      sparse_search acme "supply chain risk" 6 = Ok sparse_results
      ∧ hybrid_search locator_key acme "supply chain risk" 6 = Ok combined
      ∧ length combined ≤ 2 * 6
      ∧ NoDup (result_key locator_key <$> combined)
      ∧ (∀ κ, κ ∈ result_key locator_key <$> combined
              ↔ κ ∈ doc_key locator_key <$> vector_store acme "supply chain risk" 6
                ∨ κ ∈ doc_key locator_key <$> sparse_results)
      ∧ (∀ r, r ∈ combined →
              result_key locator_key r
                ∈ doc_key locator_key <$> vector_store acme "supply chain risk" 6 →
              result_key locator_key r ∈ doc_key locator_key <$> sparse_results →
              source r = "hybrid").
Proof.
  assert (1 ≤ 6) as Hk by lia.
  assert (length (vector_store acme "supply chain risk" 6) ≤ 6) as Hdense
    by (vm_compute; lia).
  assert (length (bm25 acme (split "supply chain risk"))
          = length (documents acme)) as Hscores by (vm_compute; reflexivity).
  split_and!; [exact Hk|exact Hdense|exact Hscores|].
  exact (hybrid_search_no_duplicates locator_key acme "supply chain risk" 6
           Hk Hdense Hscores).
Defined.

Lemma hybrid_search_dense_empty_witness :
  ∃ sparse_results,
    length sparse_results = 5
    ∧ vector_store acme_sparse_only "supply chain risk" 5 = []
    ∧ sparse_search acme_sparse_only "supply chain risk" 5 = Ok sparse_results
    ∧ NoDup (doc_key locator_key <$> sparse_results)
    ∧ ∃ combined,
        hybrid_search locator_key acme_sparse_only "supply chain risk" 5
        = Ok combined
        ∧ combined = tag "sparse" <$> sparse_results
        ∧ length combined = length sparse_results
        ∧ Forall (λ r, source r = "sparse") combined
        ∧ (sparse_results = [] → combined = []).
Proof.
  eexists. split_and!.
  2: reflexivity.
  2: vm_compute; reflexivity.
  - vm_compute; reflexivity.
  - compute_done.
  - apply (hybrid_search_dense_empty locator_key acme_sparse_only
             "supply chain risk" 5).
    + reflexivity.
    + vm_compute; reflexivity.
    + compute_done.
Defined.

Lemma deduplicate_keeps_higher_score_witness :
  ∃ all_results,
    retrieve_loop locator_key acme ["alpha"; "supply chain risk"] []
    = Ok all_results
    ∧ length all_results = 10
    ∧ ∃ unique_results,
        unique_results = _deduplicate locator_key all_results
        ∧ retrieve_sub_queries locator_key acme ["alpha"; "supply chain risk"]
          = Ok (take 10 unique_results)
        ∧ NoDup (result_key locator_key <$> unique_results)
        ∧ (∀ a, a ∈ unique_results → a ∈ all_results)
        ∧ (∀ r, r ∈ all_results →
             ∃ a, a ∈ unique_results
                  ∧ result_key locator_key a = result_key locator_key r
                  ∧ (score r <= score a)%Q).
Proof.
  eexists. split; [vm_compute; reflexivity|].
  split; [vm_compute; reflexivity|].
  apply (deduplicate_keeps_higher_score locator_key acme
           ["alpha"; "supply chain risk"]).
  vm_compute; reflexivity.
Defined.

(** C6, the counterexample: for the axis value ["2021"] the entry has
    the ten results of [hybrid_search] with [k = 5], more than 5, in
    the order of the merge and with the scores the merge left, which is
    not what a re-ranking pass over them returns. *)
Lemma compare_across_years_exceeds_5 :
  ∃ results_by_year results,
    compare_across_years locator_key acme "supply chain risk" ["2021"]
    = Ok results_by_year
    ∧ results_by_year !! "2021" = Some results
    ∧ length results = 10
    ∧ ¬ length results ≤ 5
    ∧ rerank_list acme (filtered_query "supply chain risk" "2021") results
      ≠ results.
Proof.
  eexists _, _. split_and!.
  - vm_compute; reflexivity.
  - vm_compute; reflexivity.
  - vm_compute; reflexivity.
  - vm_compute. lia.
  - intros Heq. apply (f_equal (fmap score)) in Heq.
    vm_compute in Heq. discriminate Heq.
Qed.

Lemma compare_across_years_entries_witness :
  Forall (λ year,
    length (vector_store acme (filtered_query "supply chain risk" year) 5) ≤ 5
    ∧ length (bm25 acme (split (filtered_query "supply chain risk" year)))
      = length (documents acme)) ["2021"; "2022"; "2023"]
  ∧ ∃ results_by_year,
      compare_across_years locator_key acme "supply chain risk"
        ["2021"; "2022"; "2023"] = Ok results_by_year
      ∧ dom results_by_year
        = list_to_set (C := gset string) ["2021"; "2022"; "2023"]
      ∧ ∀ year, year ∈ ["2021"; "2022"; "2023"] →
          ∃ results, results_by_year !! year = Some results
                     ∧ hybrid_search locator_key acme
                         (filtered_query "supply chain risk" year) 5
                       = Ok results
                     ∧ length results ≤ 10.
Proof.
  assert (Forall (λ year,
    length (vector_store acme (filtered_query "supply chain risk" year) 5) ≤ 5
    ∧ length (bm25 acme (split (filtered_query "supply chain risk" year)))
      = length (documents acme)) ["2021"; "2022"; "2023"]) as Hall
    by (repeat constructor; vm_compute; lia).
  split; [exact Hall|].
  exact (compare_across_years_entries locator_key acme "supply chain risk"
           ["2021"; "2022"; "2023"] Hall).
Defined.



Lemma citation_of_missing_metadata_witness :
  let result := {| content := "alpha beta"; metadata := ∅;
                   score := 0; source := "dense" |} in
  metadata result !! "section" = None
  ∧ section (citation (risk_entry "ACME" "2023" result)) = None
  ∧ url (citation (risk_entry "ACME" "2023" result)) = None.
Proof.
  intros result.
  destruct (citation_of_missing_metadata "ACME" "2023" result)
    as (_ & _ & Hsection & Hurl & _).
  split_and!; [reflexivity|by apply Hsection|by apply Hurl].
Defined.


(** * Further properties of the code *)

(** ** Tokenization *)

Section SplitFacts.

Lemma string_app_nil_r (s : string) : s +:+ "" = s.
Proof.
  induction s as [|a s IH]; [done|].
  change (String a (s +:+ "") = String a s). by rewrite IH.
Qed.

Lemma string_app_assoc (s t u : string) : (s +:+ t) +:+ u = s +:+ (t +:+ u).
Proof.
  induction s as [|a s IH]; [done|].
  change (String a ((s +:+ t) +:+ u) = String a (s +:+ (t +:+ u))).
  by rewrite IH.
Qed.

Lemma string_app_cons a (s t : string) : String a s +:+ t = String a (s +:+ t).
Proof. done. Qed.

Lemma string_app_nil_l (s : string) : "" +:+ s = s.
Proof. done. Qed.

Lemma snoc_nonempty w a : (w +:+ String a "")%string ≠ "".
Proof. by destruct w. Qed.

Lemma flush_nonempty w : w ≠ "" → flush w = [w].
Proof. intros Hw. unfold flush. by rewrite (proj2 (String.eqb_neq w "") Hw). Qed.

(** *** Bytes *)

Ltac bytes :=
  unfold is_space, is_space2, is_space3, continuation in *; cbn zeta in *;
  try (apply not_true_is_false; intros ?);
  repeat first
    [ rewrite andb_true_iff in * | rewrite orb_true_iff in *
    | rewrite Nat.eqb_eq in * | rewrite Nat.leb_le in * ];
  lia.

Lemma is_space_not_continuation a : is_space a = true → continuation a = false.
Proof. intros H. bytes. Qed.

Lemma is_space2_bytes a b :
  is_space2 a b = true →
  is_space a = false ∧ continuation a = false ∧ continuation b = true.
Proof. intros H. split_and!; bytes. Qed.

Lemma is_space3_bytes a b c :
  is_space3 a b c = true →
  is_space a = false ∧ continuation a = false
  ∧ continuation b = true ∧ continuation c = true.
Proof. intros H. split_and!; bytes. Qed.

Lemma whitespace_char_lead sp :
  whitespace_char sp = true →
  ∃ x rest, sp = String x rest ∧ continuation x = false.
Proof.
  destruct sp as [|a [|b [|c [|d sp]]]]; cbn [whitespace_char]; try done.
  - intros H%is_space_not_continuation. by eexists _, _.
  - intros (_ & H & _)%is_space2_bytes. by eexists _, _.
  - intros (_ & H & _)%is_space3_bytes. by eexists _, _.
Qed.

Lemma whitespace_char_space_len sp :
  whitespace_char sp = true → space_len sp = String.length sp ∧ sp ≠ "".
Proof.
  destruct sp as [|a [|b [|c [|d sp]]]]; cbn [whitespace_char]; try done.
  - intros H. cbn. by rewrite H.
  - intros H. destruct (is_space2_bytes _ _ H) as (Ha & _). cbn. by rewrite Ha, H.
  - intros H. destruct (is_space3_bytes _ _ _ H) as (Ha & _ & Hb & _).
    cbn. rewrite Ha, H.
    assert (is_space2 a b = false) as ->; [|done].
    clear Ha Hb. destruct (is_space2 a b) eqn:H2; [|done]. exfalso. bytes.
Qed.

(** *** Where a whitespace character can start *)

Lemma space_len_le s : space_len s ≤ String.length s.
Proof.
  destruct s as [|a [|b [|c s]]]; cbn; repeat case_match; lia.
Qed.

(** A whitespace character at the head of [u] is one at the head of
    [u ++ s]. *)
Lemma space_len_app_pos u s :
  0 < space_len u → space_len (u +:+ s) = space_len u.
Proof.
  destruct u as [|a [|b [|c u]]];
    rewrite ?string_app_cons, ?string_app_nil_l; cbn [space_len]; [lia|..].
  - destruct (is_space a); [done|lia].
  - destruct (is_space a); [done|]. destruct (is_space2 a b); [done|lia].
  - done.
Qed.

Lemma space_len_app_zero u s :
  u ≠ "" → space_len (u +:+ s) = 0 → space_len u = 0.
Proof.
  intros Hu Hs. destruct (space_len u) as [|n] eqn:Hn; [done|].
  rewrite space_len_app_pos in Hs by lia. congruence.
Qed.

(** What follows [u] cannot complete a whitespace character begun in
    [u] when it starts with a byte that is no continuation byte. *)
Lemma space_len_app_lead u x t :
  u ≠ "" → continuation x = false →
  space_len (u +:+ String x t) = space_len u.
Proof.
  intros Hu Hx. destruct u as [|a [|b [|c u]]]; [done|..];
    rewrite ?string_app_cons, ?string_app_nil_l; cbn [space_len].
  - destruct (is_space a); [done|].
    destruct (is_space2 a x) eqn:H2.
    { apply is_space2_bytes in H2 as (_ & _ & ?). congruence. }
    destruct t as [|y t]; [done|].
    destruct (is_space3 a x y) eqn:H3; [|done].
    apply is_space3_bytes in H3 as (_ & _ & ? & _). congruence.
  - destruct (is_space a); [done|]. destruct (is_space2 a b); [done|].
    destruct (is_space3 a b x) eqn:H3; [|done].
    apply is_space3_bytes in H3 as (_ & _ & _ & ?). congruence.
  - done.
Qed.

(** *** The scanner *)

Lemma split_from_unfold w a s1 :
  split_from w (String a s1)
  = match space_len (String a s1) with
    | 0 => split_from (w +:+ String a "") s1
    | S n => flush w ++ split_from "" (string_drop n s1)
    end.
Proof.
  cbn [split_from space_len].
  destruct (is_space a); [done|].
  destruct s1 as [|b s2]; [done|].
  destruct (is_space2 a b); [done|].
  destruct s2 as [|c s3]; [done|].
  by destruct (is_space3 a b c).
Qed.

Lemma string_drop_length n s :
  String.length (string_drop n s) = String.length s - n.
Proof.
  revert s. induction n as [|n IH]; intros [|a s]; cbn; done.
Qed.

Lemma string_drop_app n s t :
  n ≤ String.length s → string_drop n (s +:+ t) = string_drop n s +:+ t.
Proof.
  revert s. induction n as [|n IH]; intros [|a s]; cbn [String.length];
    rewrite ?string_app_cons, ?string_app_nil_l; try lia.
  - by destruct t.
  - done.
  - intros Hn. cbn [string_drop]. apply IH. lia.
Qed.

Lemma clean_nil_r w : clean w "" = whitespace_free w.
Proof.
  induction w as [|a w IH]; [done|].
  cbn [clean whitespace_free]. by rewrite string_app_nil_r, IH.
Qed.

Lemma clean_snoc w a s1 :
  clean w (String a s1) = true →
  space_len (String a s1) = 0 →
  clean (w +:+ String a "") s1 = true.
Proof.
  intros Hw Ha. induction w as [|b w IH].
  - rewrite string_app_nil_l. cbn [clean].
    by rewrite string_app_cons, string_app_nil_l, Ha.
  - cbn [clean] in Hw. apply andb_true_iff in Hw as [Hb Hw].
    rewrite string_app_cons. cbn [clean].
    rewrite <-string_app_cons, string_app_assoc.
    rewrite (string_app_cons a "" s1), string_app_nil_l.
    by rewrite Hb, IH.
Qed.

Lemma clean_whitespace_free w s : clean w s = true → whitespace_free w = true.
Proof.
  induction w as [|a w IH]; [done|]. cbn [clean whitespace_free].
  intros [Ha Hw]%andb_true_iff. apply Nat.eqb_eq in Ha.
  rewrite (space_len_app_zero (String a w) s) by done. by rewrite IH.
Qed.

(** Every token is a non-empty run without whitespace. *)
Lemma split_from_tokens w s :
  clean w s = true →
  Forall (λ t, t ≠ "" ∧ whitespace_free t = true) (split_from w s).
Proof.
  remember (String.length s) as n eqn:Hn. revert w s Hn.
  induction (lt_wf n) as [n _ IH]. intros w s -> Hw.
  assert (Forall (λ t, t ≠ "" ∧ whitespace_free t = true) (flush w)) as Hflush.
  { unfold flush. destruct (String.eqb_spec w ""); [constructor|].
    repeat constructor; [done|]. by eapply clean_whitespace_free. }
  destruct s as [|a s1]; [done|].
  rewrite split_from_unfold.
  destruct (space_len (String a s1)) as [|m] eqn:Hlen.
  - eapply IH; [|done|by apply clean_snoc]. cbn. lia.
  - apply Forall_app. split; [done|].
    eapply IH; [|done|done]. rewrite string_drop_length. cbn. lia.
Qed.

(** A run without whitespace is taken into the current word whole. *)
Lemma split_from_word w t :
  whitespace_free t = true → split_from w t = flush (w +:+ t).
Proof.
  revert w. induction t as [|a t IH]; intros w Ht.
  - by rewrite string_app_nil_r.
  - cbn [whitespace_free] in Ht. apply andb_true_iff in Ht as [Ha Ht].
    apply Nat.eqb_eq in Ha.
    rewrite split_from_unfold, Ha, IH by done.
    by rewrite string_app_assoc.
Qed.

Lemma split_word t :
  t ≠ "" → whitespace_free t = true → split t = [t].
Proof.
  intros Hne Ht. unfold split. rewrite split_from_word by done.
  by apply flush_nonempty.
Qed.

(** A whitespace character ends the current word and is dropped. *)
Lemma split_from_whitespace_char w sp s' :
  whitespace_char sp = true →
  split_from w (sp +:+ s') = flush w ++ split s'.
Proof.
  intros Hsp. destruct (whitespace_char_space_len sp Hsp) as [Hlen Hne].
  destruct sp as [|a sp]; [done|].
  rewrite string_app_cons, split_from_unfold, <-string_app_cons.
  rewrite space_len_app_pos, Hlen by (rewrite Hlen; cbn; lia).
  cbn [String.length]. rewrite string_drop_app by done.
  replace (string_drop (String.length sp) sp) with "".
  - done.
  - clear. induction sp as [|b sp IH]; [done|]. cbn. done.
Qed.

Lemma split_from_space w s sp s' :
  whitespace_char sp = true →
  split_from w (s +:+ sp +:+ s') = split_from w s ++ split s'.
Proof.
  intros Hsp.
  remember (String.length s) as n eqn:Hn. revert w s Hn.
  induction (lt_wf n) as [n _ IH]. intros w s ->.
  destruct s as [|a s1].
  - change ("" +:+ sp +:+ s') with (sp +:+ s').
    by rewrite split_from_whitespace_char.
  - destruct (whitespace_char_lead sp Hsp) as (x & rest & -> & Hx).
    rewrite (string_app_cons x rest s'), (string_app_cons a s1).
    rewrite !split_from_unfold.
    assert (space_len (String a (s1 +:+ String x (rest +:+ s')))
            = space_len (String a s1)) as ->.
    { rewrite <-string_app_cons. by apply space_len_app_lead. }
    pose proof (space_len_le (String a s1)) as Hle.
    rewrite <-(string_app_cons x rest s').
    destruct (space_len (String a s1)) as [|m].
    + eapply IH; [|done]. cbn. lia.
    + cbn [String.length] in Hle.
      rewrite string_drop_app by lia.
      rewrite <-(assoc_L (++)). f_equal.
      eapply IH; [|done]. rewrite string_drop_length. cbn. lia.
Qed.

(** Appending a byte that is neither whitespace nor a continuation
    byte makes no whitespace. *)
Lemma whitespace_free_snoc u c :
  whitespace_free u = true → is_space c = false → continuation c = false →
  whitespace_free (u +:+ String c "") = true.
Proof.
  intros Hu Hc Hcont. induction u as [|a u IH].
  - rewrite string_app_nil_l. cbn. by rewrite Hc.
  - cbn [whitespace_free] in Hu. apply andb_true_iff in Hu as [Ha Hu].
    rewrite string_app_cons. cbn [whitespace_free].
    assert (space_len (String a (u +:+ String c ""))
            = space_len (String a u)) as ->.
    { rewrite <-string_app_cons. by apply space_len_app_lead. }
    by rewrite Ha, IH.
Qed.

(** X1. [str.split()] as the pipeline uses it (corpus tokenization in
    [__init__], query tokenization in [hybrid_search]), over all the
    whitespace Python knows, Unicode included: no token is empty and no
    token contains whitespace; a non-empty text without whitespace is
    its own single token; the tokens of two texts joined by a
    whitespace character are the tokens of the first followed by those
    of the second; so a text of whitespace only has no tokens. *)
Theorem split_tokens (docs : list Document) (s s' sp : string)
    (sps : list string) :
  Forall (λ t, t ≠ "" ∧ whitespace_free t = true) (split s)
  ∧ (s ≠ "" → whitespace_free s = true → split s = [s])
  ∧ (whitespace_char sp = true →
     split (s +:+ sp +:+ s') = split s ++ split s')
  ∧ (Forall (λ sp, whitespace_char sp = true) sps →
     split (foldr String.append "" sps) = [])
  ∧ Forall (Forall (λ t, t ≠ "" ∧ whitespace_free t = true))
      (tokenized_docs docs).
Proof.
  split_and!.
  - by apply split_from_tokens.
  - apply split_word.
  - intros Hsp. by apply split_from_space.
  - induction 1 as [|sp0 sps0 Hsp0 _ IH]; [done|].
    cbn [foldr]. unfold split.
    by rewrite split_from_whitespace_char.
  - apply Forall_fmap, Forall_true. intros doc. by apply split_from_tokens.
Qed.

End SplitFacts.

(** ** The sparse selection *)

Section SparseSelection.
Variable self : AdvancedRAGPipeline.

Lemma omap_lookup_Forall2 {A} (docs : list A) idx l :
  Forall2 (λ i d, docs !! i = Some d) idx l → omap (docs !!.) idx = l.
Proof.
  induction 1 as [|i d idx l Hd _ IH]; [done|].
  cbn. by rewrite Hd, IH.
Qed.

Lemma omap_lookup_seq {A} (docs : list A) :
  omap (docs !!.) (seq 0 (length docs)) = docs.
Proof.
  induction docs as [|d docs IH] using rev_ind; [done|].
  rewrite length_app, Nat.add_comm. cbn [length Nat.add].
  rewrite seq_S, omap_app. cbn.
  rewrite lookup_app_r, Nat.sub_diag by done. cbn. f_equal.
  rewrite <-IH at 2. apply list_omap_ext.
  apply Forall2_same_length_lookup_2; [done|].
  intros i x y Hx Hy. assert (x = y) as -> by congruence.
  apply lookup_seq in Hy as [-> Hlt]. by rewrite lookup_app_l.
Qed.

Lemma traverse_Raise {A B} (f : A → result B) (e : exn) l :
  (∀ x e', f x = Raise e' → e' = e) →
  Exists (λ x, ∃ e', f x = Raise e') l →
  traverse f l = Raise e.
Proof.
  intros Hf. induction 1 as [x l [e' Hx]|x l Hex IH]; cbn [traverse].
  - rewrite Hx. cbn. f_equal. by eapply Hf.
  - destruct (f x) as [y|e'] eqn:Hx; cbn.
    + by rewrite IH.
    + f_equal. by eapply Hf.
Qed.

(** X3. For [k >= 1] the sparse step selects exactly min(k, N) corpus
    indices out of the N scored ones, each at most once, and none of the
    indices it leaves out has a higher lexical score than one it
    selects. *)
Theorem sparse_indices_top_scores (query : string) (k : nat) :
  1 ≤ k →
  let bm25_scores := bm25 self (split query) in
  let selected := sparse_indices self query k in
  NoDup selected
  ∧ Forall (λ i, i < length bm25_scores) selected
  ∧ length selected = k `min` length bm25_scores
  ∧ ∀ i j, i ∈ selected → j < length bm25_scores → j ∉ selected →
      (bm25_scores !!! j <= bm25_scores !!! i)%Q.
Proof.
  intros Hk bm25_scores selected.
  destruct (sparse_indices_top_k self query k Hk) as (ranking & Hperm & Hsorted & Htake).
  fold bm25_scores in Hperm, Hsorted. fold selected in Htake.
  assert (NoDup ranking) as Hnd by (rewrite Hperm; apply NoDup_seq).
  split_and!.
  - rewrite Htake. eapply sublist_NoDup; [exact Hnd|apply sublist_take].
  - apply Forall_forall. intros i Hi. by apply (sparse_indices_lt self query k).
  - rewrite Htake, length_take, Hperm, length_seq. done.
  - intros i j Hi Hj Hnj. rewrite Htake in Hi, Hnj.
    assert (j ∈ drop k ranking) as Hdrop.
    { assert (j ∈ ranking) as Hin by (rewrite Hperm; apply elem_of_seq; lia).
      rewrite <-(take_drop k ranking) in Hin.
      apply elem_of_app in Hin as [?|?]; done. }
    rewrite <-(take_drop k ranking) in Hsorted.
    apply StronglySorted_app in Hsorted as (Hcross & _ & _).
    destruct (Hcross i j Hi Hdrop) as [Hlt|[Heq _]].
    + by apply Qlt_le_weak.
    + rewrite Heq. apply Qle_refl.
Qed.

(** X4. With [k = 0] the slice [[-0:]] is the whole array: the sparse
    step selects every corpus index and (the BM25 index giving one score
    per document) returns every document of the corpus, each once. *)
Theorem sparse_search_k_zero (query : string) :
  length (bm25 self (split query)) = length (documents self) →
  sparse_indices self query 0 ≡ₚ seq 0 (length (documents self))
  ∧ ∃ sparse_results,
      sparse_search self query 0 = Ok sparse_results
      ∧ sparse_results ≡ₚ documents self.
Proof.
  intros Hlen.
  assert (sparse_indices self query 0 ≡ₚ seq 0 (length (documents self))) as Hperm.
  { unfold sparse_indices. cbn [slice_last].
    by rewrite reverse_Permutation, argsort_Permutation, Hlen. }
  split; [done|].
  destruct (sparse_search_Ok self query 0 Hlen) as (l & Hs & Hall).
  exists l. split; [done|].
  rewrite <-(omap_lookup_Forall2 _ _ _ Hall), Hperm.
  by rewrite omap_lookup_seq.
Qed.

(** X5. The sparse step raises nothing but [IndexError], and raises it
    exactly when a selected index lies beyond [self.documents] (a BM25
    index built over more passages than the pipeline holds); otherwise
    it returns one corpus document per selected index, in order. *)
Theorem sparse_search_IndexError (query : string) (k : nat) :
  let selected := sparse_indices self query k in
  (Forall (λ i, i < length (documents self)) selected →
     ∃ sparse_results,
       sparse_search self query k = Ok sparse_results
       ∧ Forall2 (λ i d, documents self !! i = Some d) selected sparse_results)
  ∧ (¬ Forall (λ i, i < length (documents self)) selected →
     sparse_search self query k = Raise IndexError).
Proof.
  intros selected. split.
  - intros Hall. apply traverse_Ok. intros i Hi.
    rewrite Forall_forall in Hall.
    destruct (lookup_lt_is_Some_2 _ _ (Hall i Hi)) as [d Hd].
    exists d. by rewrite Hd.
  - intros Hnot. apply traverse_Raise.
    + intros i e'. destruct (documents self !! i); [done|congruence].
    + apply not_Forall_Exists in Hnot; [|intros i; apply _].
      eapply Exists_impl; [exact Hnot|]. cbn. intros i Hi.
      exists IndexError. rewrite lookup_ge_None_2; [done|lia].
Qed.
End SparseSelection.

(** ** More on rerank *)

Section RerankMore.
Variable self : AdvancedRAGPipeline.

Lemma assign_scores_take results scores h :
  assign_scores results scores h
  = assign_scores (take (length scores) results) scores h.
Proof.
  unfold assign_scores. by rewrite zip_with_take_l.
Qed.

Lemma assign_scores_field {B} (proj : RetrievalResult → B) results scores h r :
  (∀ s v, proj (set_score s v) = proj v) →
  proj <$> assign_scores results scores h !! r = proj <$> h !! r.
Proof.
  intros Hproj. revert scores h.
  induction results as [|r0 results IH]; intros [|s scores] h; try done.
  rewrite assign_scores_cons, IH, list_lookup_alter.
  case_decide as Heq; [|done]. subst r0.
  rewrite <-option_fmap_compose. apply option_fmap_ext. intros v. apply Hproj.
Qed.

(** X6. [rerank] changes nothing but scores, and only of the
    candidates it has a score for: the store keeps its size, every
    object keeps its content, metadata and source tag, and an object
    that is not among the first [len(scores)] candidates (another
    object of the store, or a candidate past the end of a short score
    list) is left exactly as it was. *)
Theorem rerank_frame (h : list RetrievalResult) (query : string)
    (results : list nat) :
  let scores := reranker self (rerank_pairs h query results) in
  let h' := (rerank self h query results).1 in
  length h' = length h
  ∧ (∀ r, r ∉ take (length scores) results → h' !! r = h !! r)
  ∧ (∀ r, content <$> h' !! r = content <$> h !! r
          ∧ metadata <$> h' !! r = metadata <$> h !! r
          ∧ source <$> h' !! r = source <$> h !! r).
Proof.
  intros scores h'. split_and!.
  - apply assign_scores_length.
  - intros r Hr. unfold h', rerank. cbn [fst].
    rewrite assign_scores_take. by apply assign_scores_other.
  - intros r. split_and!; by apply assign_scores_field.
Qed.

Lemma assign_scores_seq pre l scores :
  assign_scores (seq (length pre) (length l)) scores (pre ++ l)
  = pre ++ rescore scores l.
Proof.
  revert pre scores. induction l as [|v l IH]; intros pre scores.
  - unfold rescore. destruct scores; cbn; by rewrite ?app_nil_r.
  - destruct scores as [|s scores]; [done|].
    cbn [length seq]. rewrite assign_scores_cons.
    rewrite alter_app_r_alt, Nat.sub_diag by done. cbn [alter list_alter].
    replace (S (length pre)) with (length (pre ++ [set_score s v]))
      by (rewrite length_app; cbn; lia).
    rewrite (assoc_L (++) pre [set_score s v] l : pre ++ set_score s v :: l = _).
    rewrite IH. by rewrite <-(assoc_L (++)).
Qed.

Lemma insert_desc_fmap {A B} (f : A → B) (key : B → Q) x l :
  f <$> insert_desc (key ∘ f) x l = insert_desc key (f x) (f <$> l).
Proof.
  induction l as [|y l IH]; [done|]. cbn [insert_desc fmap list_fmap].
  change ((key ∘ f) x) with (key (f x)). change ((key ∘ f) y) with (key (f y)).
  destruct (Qlt_bool (key (f x)) (key (f y))); [|done].
  cbn. f_equal. exact IH.
Qed.

Lemma sorted_reverse_fmap {A B} (f : A → B) (key : B → Q) l :
  f <$> sorted_reverse (key ∘ f) l = sorted_reverse key (f <$> l).
Proof.
  induction l as [|x l IH]; [done|]. cbn [sorted_reverse foldr fmap list_fmap].
  rewrite insert_desc_fmap. f_equal. exact IH.
Qed.

Lemma lookup_total_fmap_seq (h : list RetrievalResult) :
  (λ x, h !!! x) <$> seq 0 (length h) = h.
Proof.
  apply list_eq. intros i. rewrite list_lookup_fmap.
  destruct (decide (i < length h)) as [Hlt|Hge].
  - rewrite lookup_seq_lt by done. cbn.
    destruct (lookup_lt_is_Some_2 h i Hlt) as [v Hv].
    by rewrite Hv, (list_lookup_total_correct _ _ _ Hv).
  - rewrite lookup_seq_ge, lookup_ge_None_2 by lia. done.
Qed.

Lemma rescore_length scores l : length (rescore scores l) = length l.
Proof.
  unfold rescore. rewrite length_app, length_zip_with, length_drop. lia.
Qed.

Lemma rerank_list_sorted_rescore query (results : list RetrievalResult) :
  rerank_list self query results
  = sorted_reverse score
      (rescore (reranker self ((λ r, (query, content r)) <$> results)) results).
Proof.
  set (pairs := (λ r, (query, content r)) <$> results).
  unfold rerank_list, rerank.
  assert (rerank_pairs results query (seq 0 (length results)) = pairs) as ->.
  { unfold rerank_pairs, pairs.
    transitivity ((λ r, (query, content r))
                    <$> ((λ x, results !!! x) <$> seq 0 (length results))).
    - by rewrite <-list_fmap_compose.
    - by rewrite lookup_total_fmap_seq. }
  pose proof (assign_scores_seq [] results (reranker self pairs)) as Hh.
  cbn [length app] in Hh. rewrite Hh.
  set (h' := rescore (reranker self pairs) results).
  change (λ x, score (h' !!! x)) with (score ∘ (λ x, h' !!! x)).
  rewrite sorted_reverse_fmap. f_equal.
  rewrite <-(rescore_length (reranker self pairs) results).
  apply lookup_total_fmap_seq.
Qed.

(** X7. On a list of distinct objects (what [retrieve] passes),
    [rerank] returns the stable descending sort, by score, of the
    candidates with the score of each position written in; the
    candidates past the end of a short score list keep the score they
    came with and are sorted along. *)
Theorem rerank_list_rescored (query : string) (results : list RetrievalResult) :
  let pairs := (λ r, (query, content r)) <$> results in
  let rescored := rescore (reranker self pairs) results in
  rerank_list self query results = sorted_reverse score rescored
  ∧ rerank_list self query results ≡ₚ rescored
  ∧ StronglySorted (key_ge score) (rerank_list self query results)
  ∧ length (rerank_list self query results) = length results.
Proof.
  intros pairs rescored.
  rewrite rerank_list_sorted_rescore. fold pairs rescored. split_and!.
  - done.
  - apply sorted_reverse_Permutation.
  - apply sorted_reverse_sorted.
  - rewrite sorted_reverse_length. apply rescore_length.
Qed.

Lemma sorted_reverse_sorted_id {A} (key : A → Q) l :
  StronglySorted (key_ge key) l → sorted_reverse key l = l.
Proof.
  induction 1 as [|x l Hs IH Hx]; [done|].
  cbn [sorted_reverse foldr]. fold (sorted_reverse key l). rewrite IH.
  destruct l as [|y l]; [done|]. cbn [insert_desc].
  apply Forall_cons in Hx as [Hxy _]. unfold key_ge in Hxy.
  apply Qle_bool_iff in Hxy. unfold Qlt_bool. by rewrite Hxy.
Qed.

(** X8. With a cross-encoder that scores each pair on its own,
    re-ranking is idempotent: re-ranking the output of [rerank] for the
    same query returns it unchanged. *)
Theorem rerank_list_idempotent (f : string * string → Q) (query : string)
    (results : list RetrievalResult) :
  (∀ pairs, reranker self pairs = f <$> pairs) →
  rerank_list self query (rerank_list self query results)
  = rerank_list self query results.
Proof.
  intros Hf.
  set (g := λ r, set_score (f (query, content r)) r).
  assert (∀ l, rerank_list self query l = sorted_reverse score (g <$> l)) as Hg.
  { intros l. rewrite rerank_list_sorted_rescore, Hf. f_equal.
    unfold rescore. rewrite !length_fmap, drop_all, app_nil_r.
    rewrite <-list_fmap_compose.
    induction l as [|r l IH]; [done|]. cbn. by rewrite IH. }
  rewrite !Hg.
  assert (g <$> sorted_reverse score (g <$> results)
          = sorted_reverse score (g <$> results)) as ->.
  { rewrite <-(list_fmap_id (sorted_reverse score (g <$> results))) at 2.
    apply list_fmap_ext. intros i x Hx.
    apply list_elem_of_lookup_2 in Hx.
    rewrite sorted_reverse_Permutation in Hx.
    apply list_elem_of_fmap in Hx as (r & -> & _). done. }
  apply sorted_reverse_sorted_id, sorted_reverse_sorted.
Qed.
End RerankMore.

(** ** Exceptions and composition in the callers *)

Section Callers.
Context {Key : Type} `{EqDecision Key}.
Variable passage_key : string → gmap string string → Key.
Variable self : AdvancedRAGPipeline.

Local Abbreviation search5 q := (hybrid_search passage_key self q 5).
Local Abbreviation search20 q := (hybrid_search passage_key self q 20).

Lemma compare_loop_app query pre post m0 m :
  compare_loop passage_key self query pre m0 = Ok m →
  compare_loop passage_key self query (pre ++ post) m0
  = compare_loop passage_key self query post m.
Proof.
  revert m0. induction pre as [|y pre IH]; intros m0; cbn [compare_loop app].
  - by intros [= ->].
  - destruct (search5 (filtered_query query y)) as [results|e]; [|done].
    cbn. apply IH.
Qed.

(** X9. [compare_across_years] has no per-year recovery: for every
    query, at the first axis value whose search raises, the exception
    leaves [compare_across_years], and [analyze_risks] with it when the
    query is the one it builds; the entries that were built for the
    earlier axis values (the call on those alone returns one per value)
    are not returned. *)
Theorem compare_across_years_raises (query tkr : string)
    (pre post : list string) (yr : string) (e : exn) :
  Forall (λ y, ∃ results, search5 (filtered_query query y) = Ok results) pre →
  search5 (filtered_query query yr) = Raise e →
  (∃ built,
     compare_across_years passage_key self query pre = Ok built
     ∧ dom built = list_to_set (C := gset string) pre)
  ∧ compare_across_years passage_key self query (pre ++ yr :: post) = Raise e
  ∧ (query = ("What are the key business risks for " +:+ tkr +:+ "?")%string →
     analyze_risks passage_key self tkr (pre ++ yr :: post) = Raise e).
Proof.
  intros Hpre Hyr.
  destruct (compare_loop_Ok passage_key self query pre ∅ Hpre)
    as (m & Hm & Hlook).
  assert (compare_across_years passage_key self query (pre ++ yr :: post)
          = Raise e) as Hcmp.
  { unfold compare_across_years.
    rewrite (compare_loop_app _ _ _ _ _ Hm). cbn [compare_loop].
    by rewrite Hyr. }
  split_and!.
  - exists m. split; [done|].
    apply set_eq. intros year.
    rewrite elem_of_dom, elem_of_list_to_set.
    destruct (Hlook year) as [Hin Hout]. split.
    + intros Hsome. destruct (decide (year ∈ pre)) as [|Hnin]; [done|].
      rewrite Hout, lookup_empty in Hsome by done.
      by destruct Hsome.
    + intros (results & -> & _)%Hin. by eexists.
  - done.
  - intros ->. unfold analyze_risks. by rewrite Hcmp.
Qed.

(** X10. [analyze_risks] keeps the years and the order of
    [compare_across_years]: same keys, and under each year one risk per
    result, in the same order, carrying the result's content and a
    10-K citation with the ticker, that year, and the result's
    [section] and [source_url] metadata ([None] when missing). *)
Theorem analyze_risks_by_year (tkr : string) (years : list string)
    (results_by_year : gmap string (list RetrievalResult)) :
  compare_across_years passage_key self
    ("What are the key business risks for " +:+ tkr +:+ "?")%string years
  = Ok results_by_year →
  ∃ risk_analysis,
    analyze_risks passage_key self tkr years = Ok risk_analysis
    ∧ dom risk_analysis = dom results_by_year
    ∧ ∀ yr results, results_by_year !! yr = Some results →
        ∃ risks,
          risk_analysis !! yr = Some risks
          ∧ length risks = length results
          ∧ ∀ i r, results !! i = Some r →
              ∃ entry,
                risks !! i = Some entry
                ∧ risk entry = content r
                ∧ citation entry
                  = {| source_type := "10-K"; ticker := tkr; year := yr;
                       section := metadata r !! "section";
                       url := metadata r !! "source_url" |}.
Proof.
  intros Hcmp.
  destruct (analyze_risks_entries passage_key self tkr years _ Hcmp)
    as (risk_analysis & Hra & Hlook).
  exists risk_analysis. split_and!; [done| |].
  - apply set_eq. intros yr. rewrite !elem_of_dom, Hlook.
    by rewrite fmap_is_Some.
  - intros yr results Hyr. rewrite Hlook, Hyr.
    eexists. split_and!; [done|by rewrite length_fmap|].
    intros i r Hi. exists (risk_entry tkr yr r).
    split_and!; [by rewrite list_lookup_fmap, Hi|done..].
Qed.

(** X11. [get_financial_trends] never returns the trends of
    [_parse_financial_data]: it calls [retrieve] first, and leaves with
    the [NameError] of [decompose_query], whatever the ticker and the
    pipeline. *)
Theorem get_financial_trends_raises (tkr : string) :
  get_financial_trends passage_key self tkr = Raise (NameError "sub_queries")
  ∧ get_financial_trends passage_key self tkr
    ≠ Ok (_parse_financial_data []).
Proof. split; [done|discriminate]. Qed.

Lemma retrieve_loop_app pre post acc pool :
  retrieve_loop passage_key self pre acc = Ok pool →
  retrieve_loop passage_key self (pre ++ post) acc
  = retrieve_loop passage_key self post pool.
Proof.
  revert acc. induction pre as [|sq pre IH]; intros acc; cbn [retrieve_loop app].
  - by intros [= ->].
  - destruct (search20 sq) as [results|e]; [|done].
    cbn [mbind result_bind]. apply IH.
Qed.

Lemma retrieve_loop_Ok (cands : string → list RetrievalResult) sub_queries acc :
  Forall (λ sq, search20 sq = Ok (cands sq)) sub_queries →
  retrieve_loop passage_key self sub_queries acc
  = Ok (acc ++ concat ((λ sq, take 5 (rerank_list self sq (cands sq)))
                         <$> sub_queries)).
Proof.
  revert acc. induction sub_queries as [|sq sub_queries IH]; intros acc Hall.
  - cbn. by rewrite app_nil_r.
  - apply Forall_cons in Hall as [Hsq Hall].
    cbn [retrieve_loop]. rewrite Hsq. cbn [mbind result_bind].
    rewrite IH by done. cbn [fmap list_fmap concat].
    by rewrite <-(assoc_L (++)).
Qed.

(** X12. Lines 89-102 of [retrieve], when every search returns: the
    pool is the concatenation, in sub-query order, of the first five
    re-ranked candidates of each sub-query, so at most five per
    sub-query, and the returned list is the first ten entries of the
    deduplicated pool. *)
Theorem retrieve_sub_queries_pool (cands : string → list RetrievalResult)
    (sub_queries : list string) :
  Forall (λ sq, search20 sq = Ok (cands sq)) sub_queries →
  let all_results :=
    concat ((λ sq, take 5 (rerank_list self sq (cands sq))) <$> sub_queries) in
  retrieve_loop passage_key self sub_queries [] = Ok all_results
  ∧ length all_results ≤ 5 * length sub_queries
  ∧ retrieve_sub_queries passage_key self sub_queries
    = Ok (take 10 (_deduplicate passage_key all_results))
  ∧ length (take 10 (_deduplicate passage_key all_results)) ≤ 10.
Proof.
  intros Hall all_results.
  assert (retrieve_loop passage_key self sub_queries [] = Ok all_results) as Hloop
    by (by rewrite (retrieve_loop_Ok cands)).
  split_and!.
  - done.
  - unfold all_results. clear. induction sub_queries as [|sq sub_queries IH]; [done|].
    cbn [fmap list_fmap concat length]. rewrite length_app, length_take. lia.
  - unfold retrieve_sub_queries. by rewrite Hloop.
  - rewrite length_take. lia.
Qed.

(** X13. Lines 89-102 of [retrieve] have no per-sub-query recovery: if
    the search of one sub-query raises, the exception leaves the loop
    and the results gathered for the earlier sub-queries (the pool the
    loop builds for those alone, which the same lines would return
    deduplicated) are not returned. *)
Theorem retrieve_sub_queries_raises (pre post : list string) (sq : string)
    (e : exn) :
  Forall (λ q, ∃ results, search20 q = Ok results) pre →
  search20 sq = Raise e →
  (∃ pool,
     retrieve_loop passage_key self pre [] = Ok pool
     ∧ retrieve_sub_queries passage_key self pre
       = Ok (take 10 (_deduplicate passage_key pool)))
  ∧ retrieve_sub_queries passage_key self (pre ++ sq :: post) = Raise e.
Proof.
  intros Hpre Hsq.
  assert (∃ pool, retrieve_loop passage_key self pre [] = Ok pool) as [pool Hpool].
  { generalize (@nil RetrievalResult).
    induction Hpre as [|q pre [results Hq] _ IH]; intros acc; [by eexists|].
    cbn [retrieve_loop]. rewrite Hq. cbn [mbind result_bind]. apply IH. }
  split.
  - exists pool. split; [done|]. unfold retrieve_sub_queries. by rewrite Hpool.
  - unfold retrieve_sub_queries.
    rewrite (retrieve_loop_app _ _ _ _ Hpool). cbn [retrieve_loop].
    by rewrite Hsq.
Qed.
End Callers.

(** ** execute_plan *)

Section OrchestratorFacts.
Context {V : Type}.
Variable self : OrchestratorAgent V.
Variable tkr : string.

Lemma deps_ready_true (results : gmap string V) step :
  deps_ready results step = true
  ↔ ∀ dep, dep ∈ dependencies step → is_Some (results !! dep).
Proof.
  unfold deps_ready. rewrite forallb_forall. split.
  - intros Hall dep Hdep. apply list_elem_of_In in Hdep.
    specialize (Hall dep Hdep). by apply bool_decide_eq_true in Hall.
  - intros Hall dep Hdep. apply bool_decide_eq_true, Hall.
    by apply list_elem_of_In.
Qed.

(** What one turn of the loop can do to [results]. *)
Lemma execute_step_Returned (results : gmap string V) step results' :
  execute_step self tkr results step = Returned results' →
  results' = results
  ∨ (deps_ready results step = true
     ∧ agent step ∈ known_agents
     ∧ ∃ v, results' = <[agent step := v]> results).
Proof.
  unfold execute_step, known_agents.
  destruct (deps_ready results step); cbn [negb]; [|intros [= <-]; by left].
  destruct (String.eqb_spec (agent step) "sec_researcher") as [Ha|_].
  { intros [= <-]. right. split_and!; [done|rewrite Ha; set_solver|by eexists]. }
  destruct (String.eqb_spec (agent step) "market_data") as [Ha|_].
  { intros [= <-]. right. split_and!; [done|rewrite Ha; set_solver|by eexists]. }
  destruct (String.eqb_spec (agent step) "analyst") as [Ha|_].
  { intros [= <-]. right. split_and!; [done|rewrite Ha; set_solver|by eexists]. }
  destruct (String.eqb_spec (agent step) "auditor") as [Ha|_].
  { destruct (results !! "analyst"); [|done].
    intros [= <-]. right. split_and!; [done|rewrite Ha; set_solver|by eexists]. }
  intros [= <-]. by left.
Qed.

Lemma execute_step_KeyError (results : gmap string V) step key :
  execute_step self tkr results step = KeyError key →
  key = "analyst" ∧ agent step = "auditor"
  ∧ deps_ready results step = true ∧ results !! "analyst" = None.
Proof.
  unfold execute_step.
  destruct (deps_ready results step); cbn [negb]; [|done].
  destruct (String.eqb_spec (agent step) "sec_researcher"); [done|].
  destruct (String.eqb_spec (agent step) "market_data"); [done|].
  destruct (String.eqb_spec (agent step) "analyst"); [done|].
  destruct (String.eqb_spec (agent step) "auditor") as [Ha|_]; [|done].
  destruct (results !! "analyst") eqn:Han; [done|].
  by intros [= <-].
Qed.

(** A step with ready dependencies and a known agent other than an
    auditor without analysis stores a result under its agent name. *)
Lemma execute_step_runs (results : gmap string V) step :
  deps_ready results step = true →
  agent step ∈ known_agents →
  (agent step = "auditor" → is_Some (results !! "analyst")) →
  ∃ v, execute_step self tkr results step
       = Returned (<[agent step := v]> results).
Proof.
  intros Hready Hknown Haud. unfold execute_step. rewrite Hready. cbn [negb].
  destruct (String.eqb_spec (agent step) "sec_researcher"); [by eexists|].
  destruct (String.eqb_spec (agent step) "market_data"); [by eexists|].
  destruct (String.eqb_spec (agent step) "analyst"); [by eexists|].
  destruct (String.eqb_spec (agent step) "auditor") as [Ha|Hna].
  - destruct (Haud Ha) as [analysis ->]. by eexists.
  - unfold known_agents in Hknown.
    repeat (apply elem_of_cons in Hknown as [?|Hknown]; [done|]).
    by apply elem_of_nil in Hknown.
Qed.

Lemma execute_step_skips (results : gmap string V) step :
  deps_ready results step = false →
  execute_step self tkr results step = Returned results.
Proof. intros Hready. unfold execute_step. by rewrite Hready. Qed.

Lemma execute_steps_app pre post (r0 r : gmap string V) :
  execute_steps self tkr pre r0 = Returned r →
  execute_steps self tkr (pre ++ post) r0 = execute_steps self tkr post r.
Proof.
  revert r0. induction pre as [|step pre IH]; intros r0; cbn [execute_steps app].
  - by intros [= ->].
  - destruct (execute_step self tkr r0 step); [apply IH|done].
Qed.

Lemma execute_steps_closed steps (r0 r : gmap string V) :
  execute_steps self tkr steps r0 = Returned r →
  (∀ a, is_Some (r0 !! a) → is_Some (r !! a))
  ∧ ∀ a, is_Some (r !! a) →
      is_Some (r0 !! a)
      ∨ (a ∈ known_agents
         ∧ ∃ step, step ∈ steps ∧ agent step = a
                   ∧ ∀ dep, dep ∈ dependencies step → is_Some (r !! dep)).
Proof.
  revert r0. induction steps as [|step steps IH]; intros r0; cbn [execute_steps].
  - intros [= ->]. split; [done|]. intros a ?. by left.
  - destruct (execute_step self tkr r0 step) as [r1|] eqn:Hstep; [|done].
    intros Hrest. destruct (IH r1 Hrest) as [Hmono Hkeys].
    apply execute_step_Returned in Hstep as [->|(Hready & Hknown & v & ->)].
    + split; [done|]. intros a Ha.
      destruct (Hkeys a Ha) as [?|(? & s & ? & ? & ?)]; [by left|].
      right. split; [done|]. exists s. split_and!; [by right|done..].
    + split.
      * intros a Ha. apply Hmono. rewrite lookup_insert.
        case_decide; [by eexists|done].
      * intros a Ha.
        destruct (Hkeys a Ha) as [Hin|(? & s & ? & ? & ?)].
        -- rewrite lookup_insert in Hin. case_decide as Heq; [|by left].
           subst a. right. split; [done|]. exists step.
           split_and!; [left|done|].
           intros dep Hdep. apply Hmono. rewrite lookup_insert.
           case_decide; [by eexists|].
           by apply (proj1 (deps_ready_true r0 step) Hready).
        -- right. split; [done|]. exists s. split_and!; [by right|done..].
Qed.

(** X14. Whatever the plan, the results of [execute_plan] are closed
    under the plan's dependencies: every key is one of the four agent
    names the loop dispatches on and the agent of some step of the plan
    all of whose dependencies have results too. A step naming any other
    agent leaves no trace. *)
Theorem execute_plan_results_closed (plan : list Step)
    (results : gmap string V) (a : string) :
  execute_plan self plan tkr = Returned results →
  is_Some (results !! a) →
  a ∈ known_agents
  ∧ ∃ step, step ∈ plan ∧ agent step = a
            ∧ ∀ dep, dep ∈ dependencies step → is_Some (results !! dep).
Proof.
  intros Hrun Ha.
  destruct (execute_steps_closed plan ∅ results Hrun) as [_ Hkeys].
  destruct (Hkeys a Ha) as [Hin|?]; [|done].
  rewrite lookup_empty in Hin. by destruct Hin.
Qed.

Lemma execute_steps_never a before steps (r0 r : gmap string V) :
  (∀ k, is_Some (r0 !! k) → k ∈ agent <$> before) →
  r0 !! a = None →
  (∀ pre step post, steps = pre ++ step :: post → agent step = a →
     ∃ dep, dep ∈ dependencies step ∧ dep ∉ agent <$> (before ++ pre)) →
  execute_steps self tkr steps r0 = Returned r →
  r !! a = None.
Proof.
  revert before r0. induction steps as [|step steps IH];
    intros before r0 Hkeys Ha Hblocked; cbn [execute_steps].
  - by intros [= <-].
  - destruct (execute_step self tkr r0 step) as [r1|] eqn:Hstep; [|done].
    apply (IH (before ++ [step])).
    + intros k Hk. rewrite fmap_app, elem_of_app. cbn.
      apply execute_step_Returned in Hstep as [->|(_ & _ & v & ->)];
        [left; by apply Hkeys|].
      rewrite lookup_insert in Hk. case_decide as Heq.
      * right. rewrite Heq. left.
      * left. by apply Hkeys.
    + apply execute_step_Returned in Hstep as [->|(Hready & _ & v & ->)]; [done|].
      rewrite lookup_insert_ne; [done|]. intros Heq.
      destruct (Hblocked [] step steps eq_refl Heq) as (dep & Hdep & Hnot).
      rewrite app_nil_r in Hnot. apply Hnot, Hkeys.
      by apply (proj1 (deps_ready_true r0 step) Hready).
    + intros pre s post -> Hs.
      destruct (Hblocked (step :: pre) s post eq_refl Hs) as (dep & Hdep & Hnot).
      exists dep. split; [done|]. by rewrite <-(assoc_L (++)).
Qed.

(** X15. [execute_plan] makes one pass and never comes back to a step
    it skipped: an agent whose every step lists a dependency that no
    earlier step of the plan is for gets no result, even if a later step
    provides that dependency. *)
Theorem execute_plan_never_retries (plan : list Step)
    (results : gmap string V) (a : string) :
  (∀ pre step post, plan = pre ++ step :: post → agent step = a →
     ∃ dep, dep ∈ dependencies step ∧ dep ∉ agent <$> pre) →
  execute_plan self plan tkr = Returned results →
  results !! a = None.
Proof.
  intros Hblocked Hrun.
  apply (execute_steps_never a [] plan ∅ results); [|done|done|done].
  intros k Hk. rewrite lookup_empty in Hk. by destruct Hk.
Qed.

Lemma execute_steps_KeyError steps (r0 : gmap string V) key :
  execute_steps self tkr steps r0 = KeyError key →
  key = "analyst"
  ∧ ∃ step, step ∈ steps ∧ agent step = "auditor"
            ∧ "analyst" ∉ dependencies step.
Proof.
  revert r0. induction steps as [|step steps IH]; intros r0; cbn [execute_steps];
    [done|].
  destruct (execute_step self tkr r0 step) as [r1|key'] eqn:Hstep.
  - intros (-> & s & ? & ? & ?)%IH. split; [done|].
    exists s. split_and!; [by right|done..].
  - intros [= ->].
    apply execute_step_KeyError in Hstep as (-> & Ha & Hready & Hnone).
    split; [done|]. exists step. split_and!; [left|done|].
    intros Hdep.
    apply (proj1 (deps_ready_true r0 step) Hready) in Hdep.
    rewrite Hnone in Hdep. by destruct Hdep.
Qed.

Lemma execute_steps_all before steps (r0 : gmap string V) :
  (∀ k, is_Some (r0 !! k) ↔ k ∈ agent <$> before) →
  Forall (λ step, agent step ∈ known_agents) steps →
  (∀ pre step post, steps = pre ++ step :: post →
     (∀ dep, dep ∈ dependencies step → dep ∈ agent <$> (before ++ pre))
     ∧ (agent step = "auditor" → "analyst" ∈ agent <$> (before ++ pre))) →
  ∃ r, execute_steps self tkr steps r0 = Returned r
       ∧ ∀ k, is_Some ((r : gmap string V) !! k) ↔ k ∈ agent <$> (before ++ steps).
Proof.
  revert before r0. induction steps as [|step steps IH];
    intros before r0 Hkeys Hknown Hordered; cbn [execute_steps].
  - exists r0. split; [done|]. by rewrite app_nil_r.
  - apply Forall_cons in Hknown as [Hk Hknown].
    destruct (Hordered [] step steps eq_refl) as [Hdeps Haud].
    rewrite app_nil_r in Hdeps, Haud.
    assert (deps_ready r0 step = true) as Hready.
    { apply deps_ready_true. intros dep Hdep. by apply Hkeys, Hdeps. }
    assert (agent step = "auditor" → is_Some (r0 !! "analyst")) as Han.
    { intros Ha. by apply Hkeys, Haud. }
    destruct (execute_step_runs r0 step Hready Hk Han) as [v ->].
    destruct (IH (before ++ [step]) (<[agent step := v]> r0)) as (r & Hr & Hdom).
    + intros k. rewrite lookup_insert, fmap_app, elem_of_app. cbn.
      rewrite list_elem_of_singleton. case_decide as Heq.
      * subst k. split; [by right|by eexists].
      * rewrite Hkeys. split; [by left|]. intros [?|?]; [done|congruence].
    + done.
    + intros pre s post ->.
      destruct (Hordered (step :: pre) s post eq_refl) as [Hd Ha].
      rewrite <-(assoc_L (++)). done.
    + exists r. split; [done|].
      intros k. rewrite Hdom, <-(assoc_L (++)). done.
Qed.

(** X17. A plan in dependency order runs in full: if every step names
    one of the four agents, every dependency of a step is the agent of an
    earlier step, and every auditor step comes after an analyst step,
    [execute_plan] returns, with a result for exactly the agents of the
    plan. *)
Theorem execute_plan_in_order (plan : list Step) :
  Forall (λ step, agent step ∈ known_agents) plan →
  (∀ pre step post, plan = pre ++ step :: post →
     (∀ dep, dep ∈ dependencies step → dep ∈ agent <$> pre)
     ∧ (agent step = "auditor" → "analyst" ∈ agent <$> pre)) →
  ∃ results,
    execute_plan self plan tkr = Returned results
    ∧ ∀ a, is_Some (results !! a) ↔ a ∈ agent <$> plan.
Proof.
  intros Hknown Hordered.
  apply (execute_steps_all [] plan ∅); [|done|done].
  intros k. rewrite lookup_empty, fmap_nil, elem_of_nil.
  split; [by intros []|done].
Qed.
End OrchestratorFacts.

(** ** execute_plan on the plan as parsed *)

Section PlanFacts.
Context {V : Type}.
Variable self : Plan.OrchestratorAgent V.
Variable tkr : string.

Lemma subscript_Raised v key e :
  Plan.subscript v key = Plan.Raised e →
  e = Plan.TypeError ∨ e = Plan.KeyError key.
Proof.
  destruct v as [| | | | |fields]; cbn; try (intros [= <-]; by left).
  destruct (fields !! key); [done|]. intros [= <-]. by right.
Qed.

Lemma iterate_Raised v e :
  Plan.iterate v = Plan.Raised e → e = Plan.TypeError.
Proof. destruct v; cbn; congruence. Qed.

Lemma all_in_Raised (results : gmap string V) deps e :
  Plan.all_in results deps = Plan.Raised e → e = Plan.TypeError.
Proof.
  induction deps as [|dep deps IH]; cbn [Plan.all_in]; [done|].
  destruct dep; cbn; try congruence.
  by destruct (bool_decide _).
Qed.

Lemma dispatch_Raised (results : gmap string V) agent_name task e :
  Plan.dispatch self tkr results agent_name task = Plan.Raised e →
  e = Plan.KeyError "analyst".
Proof.
  destruct agent_name as [| | |name| |]; cbn; try done.
  repeat (case_match; try done). congruence.
Qed.

Lemma execute_step_Raised (results : gmap string V) step e :
  Plan.execute_step self tkr results step = Plan.Raised e →
  e = Plan.TypeError
  ∨ ∃ key, e = Plan.KeyError key
           ∧ key ∈ ["agent"; "task"; "dependencies"; "analyst"].
Proof.
  unfold Plan.execute_step.
  destruct (Plan.subscript step "agent") as [agent_name|e1] eqn:H1; cbn.
  2: { intros [= <-]. apply subscript_Raised in H1 as [->| ->]; [by left|].
       right. eexists. split; [done|compute_done]. }
  destruct (Plan.subscript step "task") as [task|e2] eqn:H2; cbn.
  2: { intros [= <-]. apply subscript_Raised in H2 as [->| ->]; [by left|].
       right. eexists. split; [done|compute_done]. }
  destruct (Plan.subscript step "dependencies") as [dependencies|e3] eqn:H3; cbn.
  2: { intros [= <-]. apply subscript_Raised in H3 as [->| ->]; [by left|].
       right. eexists. split; [done|compute_done]. }
  destruct (Plan.iterate dependencies) as [deps|e4] eqn:H4; cbn.
  2: { intros [= <-]. apply iterate_Raised in H4 as ->. by left. }
  destruct (Plan.all_in results deps) as [ready|e5] eqn:H5; cbn.
  2: { intros [= <-]. apply all_in_Raised in H5 as ->. by left. }
  destruct ready; cbn [negb]; [|done].
  intros ->%dispatch_Raised. right. eexists. split; [done|compute_done].
Qed.

Lemma execute_steps_Raised steps (results : gmap string V) e :
  Plan.execute_steps self tkr steps results = Plan.Raised e →
  e = Plan.TypeError
  ∨ ∃ key, e = Plan.KeyError key
           ∧ key ∈ ["agent"; "task"; "dependencies"; "analyst"].
Proof.
  revert results. induction steps as [|step steps IH]; intros results;
    cbn [Plan.execute_steps]; [done|].
  destruct (Plan.execute_step self tkr results step) as [results'|e'] eqn:Hstep;
    cbn.
  - apply IH.
  - intros [= <-]. by eapply execute_step_Raised.
Qed.

(** *** Plans of the shape the prompt asks for *)

Lemma decode_strings deps deps' :
  mapM decode_string deps = Some deps' → deps = Plan.JString <$> deps'.
Proof.
  intros Hall%mapM_Some_1.
  induction Hall as [|dep s deps deps' Hs _ IH]; [done|].
  destruct dep; try done. cbn in Hs. injection Hs as <-. by rewrite IH.
Qed.

Lemma all_in_strings (results : gmap string V) deps :
  Plan.all_in results (Plan.JString <$> deps)
  = Plan.Returned (forallb (λ dep, bool_decide (is_Some (results !! dep))) deps).
Proof.
  induction deps as [|dep deps IH]; [done|].
  cbn. by destruct (bool_decide _).
Qed.

Lemma decode_step_execute (results : gmap string V) step st :
  decode_step step = Some st →
  Plan.execute_step self tkr results step
  = embed (execute_step (on_strings self) tkr results st).
Proof.
  destruct step as [| | | | |fields]; try done. cbn [decode_step].
  destruct (fields !! "agent") as [[| | |a| |]|] eqn:Ha; try done.
  destruct (fields !! "task") as [[| | |t| |]|] eqn:Ht; try done.
  destruct (fields !! "dependencies") as [[| | | |deps|]|] eqn:Hd; try done.
  destruct (mapM decode_string deps) as [deps'|] eqn:Hdeps; [|done].
  cbn. intros [= <-]. apply decode_strings in Hdeps as ->.
  unfold Plan.execute_step, execute_step, deps_ready. cbn.
  rewrite Ha, Ht, Hd. cbn. rewrite all_in_strings. cbn.
  destruct (forallb _ deps'); cbn [negb]; [|done].
  repeat (case_match; try done).
Qed.

Lemma decode_steps_execute (results : gmap string V) items steps :
  mapM decode_step items = Some steps →
  Plan.execute_steps self tkr items results
  = embed (execute_steps (on_strings self) tkr steps results).
Proof.
  intros Hall%mapM_Some_1. revert results.
  induction Hall as [|item st items steps Hst _ IH]; intros results; [done|].
  cbn [Plan.execute_steps execute_steps].
  rewrite (decode_step_execute _ _ _ Hst).
  destruct (execute_step (on_strings self) tkr results st); cbn; [apply IH|done].
Qed.

Lemma decode_plan_execute plan steps :
  decode_plan plan = Some steps →
  Plan.execute_plan self plan tkr
  = embed (execute_plan (on_strings self) steps tkr).
Proof.
  destruct plan as [| | | | |fields]; try done. cbn [decode_plan].
  destruct (fields !! "steps") as [[| | | |items|]|] eqn:Hsteps; try done.
  intros Hitems. unfold Plan.execute_plan. cbn. rewrite Hsteps. cbn.
  by apply decode_steps_execute.
Qed.

(** X16. [execute_plan] raises by itself nothing but [TypeError] and
    the [KeyError] of one of the five keys it subscripts; a plan
    without ['steps'] raises the first, a first step without ['agent']
    the second, before any dependency is looked at. On a plan of the
    shape the prompt asks for it does what the loop over well-formed
    steps does: the only exception left is the [KeyError] of
    [results['analyst']], and only for a plan with an auditor step that
    does not list ["analyst"] among its dependencies; when every
    auditor step does, [execute_plan] returns; it raises as soon as an
    auditor step has its dependencies ready while no analysis has been
    stored. *)
Theorem execute_plan_KeyError (plan : Plan.json) :
  (∀ e, Plan.execute_plan self plan tkr = Plan.Raised e →
     e = Plan.TypeError
     ∨ ∃ key, e = Plan.KeyError key ∧ key ∈ subscripted_keys)
  ∧ (∀ fields, plan = Plan.JObject fields → fields !! "steps" = None →
       Plan.execute_plan self plan tkr = Plan.Raised (Plan.KeyError "steps"))
  ∧ (∀ fields step_fields steps,
       plan = Plan.JObject fields →
       fields !! "steps"
       = Some (Plan.JArray (Plan.JObject step_fields :: steps)) →
       step_fields !! "agent" = None →
       Plan.execute_plan self plan tkr = Plan.Raised (Plan.KeyError "agent"))
  ∧ (∀ steps, decode_plan plan = Some steps →
       Plan.execute_plan self plan tkr
       = embed (execute_plan (on_strings self) steps tkr)
       ∧ (∀ e, Plan.execute_plan self plan tkr = Plan.Raised e →
            e = Plan.KeyError "analyst"
            ∧ ∃ step, step ∈ steps ∧ agent step = "auditor"
                      ∧ "analyst" ∉ dependencies step)
       ∧ ((∀ step, step ∈ steps → agent step = "auditor" →
             "analyst" ∈ dependencies step) →
          ∃ results, Plan.execute_plan self plan tkr = Plan.Returned results)
       ∧ (∀ pre step post results,
            steps = pre ++ step :: post →
            execute_plan (on_strings self) pre tkr = Returned results →
            agent step = "auditor" →
            (∀ dep, dep ∈ dependencies step → is_Some (results !! dep)) →
            results !! "analyst" = None →
            Plan.execute_plan self plan tkr
            = Plan.Raised (Plan.KeyError "analyst"))).
Proof.
  split_and!.
  - intros e. unfold Plan.execute_plan.
    destruct (Plan.subscript plan "steps") as [steps|e1] eqn:H1; cbn.
    2: { intros [= <-]. apply subscript_Raised in H1 as [->| ->]; [by left|].
         right. eexists. split; [done|compute_done]. }
    destruct (Plan.iterate steps) as [items|e2] eqn:H2; cbn.
    2: { intros [= <-]. apply iterate_Raised in H2 as ->. by left. }
    intros [->|(key & -> & Hkey)]%execute_steps_Raised; [by left|].
    right. exists key. split; [done|]. unfold subscripted_keys. by right.
  - intros fields -> Hnone. unfold Plan.execute_plan. cbn. by rewrite Hnone.
  - intros fields step_fields steps -> Hsteps Hnone.
    unfold Plan.execute_plan. cbn. rewrite Hsteps. cbn.
    unfold Plan.execute_step. cbn. by rewrite Hnone.
  - intros steps Hdec.
    pose proof (decode_plan_execute plan steps Hdec) as Heq.
    split_and!.
    + done.
    + intros e. rewrite Heq.
      destruct (execute_plan (on_strings self) steps tkr) as [results|key] eqn:Hrun;
        [done|].
      intros [= <-].
      apply execute_steps_KeyError in Hrun as (-> & Hstep). done.
    + intros Haud. rewrite Heq.
      destruct (execute_plan (on_strings self) steps tkr) as [results|key] eqn:Hrun;
        [by eexists|].
      apply execute_steps_KeyError in Hrun as (_ & step & Hin & Ha & Hnot).
      destruct Hnot. by apply Haud.
    + intros pre step post results -> Hpre Ha Hdeps Hnone.
      rewrite Heq. unfold execute_plan in *.
      rewrite (execute_steps_app _ _ _ _ _ _ Hpre). cbn [execute_steps].
      unfold execute_step.
      rewrite (proj2 (deps_ready_true results step) Hdeps), Ha, Hnone. done.
Qed.
End PlanFacts.

(** ** The chat loop *)

Section ChatFacts.
Import Chat.
Variable tkr : string.

(** X18. The chat loop only appends to the conversation: what was
    recorded before stays, in place; at most one turn is added per
    input; every added turn carries the chat's ticker and the query,
    answer and time of an input the agent answered; and no turn is
    recorded for [exit] or [history], in any letter case. *)
Theorem chat_conversation_grows (inputs : list input) (conversation : list Turn) :
  ∃ new,
    (chat tkr inputs conversation).1.1 = conversation ++ new
    ∧ length new ≤ length inputs
    ∧ Forall (λ turn,
        ticker turn = tkr
        ∧ lower (query turn) ≠ "exit"
        ∧ lower (query turn) ≠ "history"
        ∧ Typed (query turn) (Reply (response turn)) (timestamp turn) ∈ inputs)
        new.
Proof.
  revert conversation.
  induction inputs as [|i inputs IH]; intros conversation.
  { exists []. by rewrite app_nil_r. }
  assert (∀ conv, ∃ new,
    (chat tkr inputs conv).1.1 = conv ++ new
    ∧ length new ≤ length (i :: inputs)
    ∧ Forall (λ turn,
        ticker turn = tkr
        ∧ lower (query turn) ≠ "exit"
        ∧ lower (query turn) ≠ "history"
        ∧ Typed (query turn) (Reply (response turn)) (timestamp turn)
            ∈ i :: inputs) new) as IH'.
  { intros conv. destruct (IH conv) as (new & Hnew & Hlen & Hall).
    exists new. split_and!; [done|cbn; lia|].
    eapply Forall_impl; [exact Hall|].
    intros turn (? & ? & ? & ?). split_and!; [done..|by right]. }
  assert (∃ new : list Turn,
    conversation = conversation ++ new
    ∧ length new ≤ length (i :: inputs)
    ∧ Forall (λ turn,
        ticker turn = tkr
        ∧ lower (query turn) ≠ "exit"
        ∧ lower (query turn) ≠ "history"
        ∧ Typed (query turn) (Reply (response turn)) (timestamp turn)
            ∈ i :: inputs) new) as Hstay.
  { exists []. rewrite app_nil_r. split_and!; [done|cbn; lia|constructor]. }
  destruct i as [q answer now|message|]; cbn [chat].
  - destruct (String.eqb_spec (lower q) "exit") as [|Hexit]; [exact Hstay|].
    destruct (String.eqb_spec (lower q) "history") as [|Hhistory].
    { destruct (IH' conversation) as (new & Hnew & ?).
      destruct (chat tkr inputs conversation) as [[c out] st].
      by exists new. }
    destruct answer as [content|message|]; [| |exact Hstay].
    + set (turn := {| timestamp := now; ticker := tkr;
                      query := q; response := content |}).
      destruct (IH (conversation ++ [turn])) as (new & Hnew & Hlen & Hall).
      destruct (chat tkr inputs (conversation ++ [turn])) as [[c out] st].
      cbn [fst] in *. exists (turn :: new). split_and!.
      * by rewrite Hnew, <-(assoc_L (++)).
      * cbn. lia.
      * constructor; [split_and!; [done..|left]|].
        eapply Forall_impl; [exact Hall|].
        intros t (? & ? & ? & ?). split_and!; [done..|by right].
    + destruct (IH' conversation) as (new & Hnew & ?).
      destruct (chat tkr inputs conversation) as [[c out] st].
      by exists new.
  - destruct (IH' conversation) as (new & Hnew & ?).
    destruct (chat tkr inputs conversation) as [[c out] st].
    by exists new.
  - exact Hstay.
Qed.

(** X19. [exit], in any letter case, ends the chat: whatever follows it
    is never read, so neither answered nor recorded. *)
Theorem chat_exit_stops (pre post : list input) (q : string) (answer : reply)
    (now : string) (conversation : list Turn) :
  lower q = "exit" →
  chat tkr (pre ++ Typed q answer now :: post) conversation
  = chat tkr (pre ++ [Typed q answer now]) conversation
  ∧ (chat tkr (pre ++ [Typed q answer now]) conversation).2 = true.
Proof.
  intros Hexit. revert conversation.
  induction pre as [|i pre IH]; intros conversation.
  { cbn [app chat]. by rewrite Hexit. }
  cbn [app].
  destruct i as [q' answer' now'|message|]; cbn [chat]; [| |done].
  - destruct (String.eqb (lower q') "exit"); [done|].
    destruct (String.eqb (lower q') "history").
    { destruct (IH conversation) as [-> Hstop].
      by destruct (chat tkr (pre ++ [Typed q answer now]) conversation) as [[c out] st]. }
    destruct answer' as [content|message|]; [| |done].
    + match goal with |- context [chat tkr _ ?conv] =>
        destruct (IH conv) as [-> Hstop];
        by destruct (chat tkr (pre ++ [Typed q answer now]) conv) as [[c out] st]
      end.
    + destruct (IH conversation) as [-> Hstop].
      by destruct (chat tkr (pre ++ [Typed q answer now]) conversation) as [[c out] st].
  - destruct (IH conversation) as [-> Hstop].
    by destruct (chat tkr (pre ++ [Typed q answer now]) conversation) as [[c out] st].
Qed.
End ChatFacts.

(** ** Instances on the sample corpus *)

Lemma split_tokens_witness :
  whitespace_char nbsp = true
  ∧ whitespace_char em_space = true
  ∧ split ("FY" +:+ nbsp +:+ "2021") = ["FY"; "2021"]
  ∧ split ("supply chain" +:+ em_space +:+ "risk") = ["supply"; "chain"; "risk"]
  ∧ split (foldr String.append "" [nbsp; " "; em_space]) = [].
Proof.
  assert (whitespace_char nbsp = true) as Hnbsp by reflexivity.
  assert (whitespace_char em_space = true) as Hem by reflexivity.
  split_and!; [done|done|..].
  - destruct (split_tokens [] "FY" "2021" nbsp []) as (_ & _ & -> & _);
      [done|reflexivity].
  - destruct (split_tokens [] "supply chain" "risk" em_space [])
      as (_ & _ & -> & _); [done|reflexivity].
  - destruct (split_tokens [] "" "" "" [nbsp; " "; em_space])
      as (_ & _ & _ & Hnone & _).
    apply Hnone. by repeat constructor.
Defined.


Lemma sparse_indices_top_scores_witness :
  1 ≤ 3
  ∧ sparse_indices acme "alpha supply" 3 = [0; 9; 8]
  ∧ NoDup (sparse_indices acme "alpha supply" 3)
  ∧ length (sparse_indices acme "alpha supply" 3)
    = 3 `min` length (bm25 acme (split "alpha supply")).
Proof.
  assert (1 ≤ 3) as Hk by lia.
  destruct (sparse_indices_top_scores acme "alpha supply" 3 Hk)
    as (Hnd & _ & Hlen & _).
  split_and!; [exact Hk|vm_compute; reflexivity|exact Hnd|exact Hlen].
Defined.

Lemma sparse_search_k_zero_witness :
  length (bm25 acme (split "alpha supply")) = length (documents acme)
  ∧ sparse_indices acme "alpha supply" 0 ≡ₚ seq 0 (length (documents acme))
  ∧ ∃ sparse_results,
      sparse_search acme "alpha supply" 0 = Ok sparse_results
      ∧ sparse_results ≡ₚ documents acme.
Proof.
  assert (length (bm25 acme (split "alpha supply")) = length (documents acme))
    as Hlen by (vm_compute; reflexivity).
  split; [exact Hlen|].
  exact (sparse_search_k_zero acme "alpha supply" Hlen).
Defined.

Lemma sparse_search_IndexError_witness :
  sparse_indices acme_stale "supply chain risk" 5 = [9; 8; 7; 6; 5]
  ∧ length (documents acme_stale) = 5
  ∧ sparse_search acme_stale "supply chain risk" 5 = Raise IndexError.
Proof.
  split_and!; [vm_compute; reflexivity..|].
  apply (sparse_search_IndexError acme_stale "supply chain risk" 5).
  intros Hall. apply Forall_cons in Hall as [Hlt _].
  vm_compute in Hlt. lia.
Defined.

Lemma rerank_list_idempotent_witness :
  let f := (λ p : string * string, Z.of_nat (overlap (split p.1) p.2) # 10)%Q in
  let results := tag "dense" <$> acme_corpus in
  (∀ pairs, reranker acme pairs = f <$> pairs)
  ∧ rerank_list acme "supply chain risk"
      (rerank_list acme "supply chain risk" results)
    = rerank_list acme "supply chain risk" results.
Proof.
  intros f results.
  assert (∀ pairs, reranker acme pairs = f <$> pairs) as Hf by reflexivity.
  split; [exact Hf|].
  exact (rerank_list_idempotent acme f "supply chain risk" results Hf).
Defined.

Lemma compare_across_years_raises_witness :
  let query := "What are the key business risks for ACME?" in
  Forall (λ y, ∃ results,
    hybrid_search locator_key acme_stale (filtered_query query y) 5
    = Ok results) ["alpha x"]
  ∧ hybrid_search locator_key acme_stale (filtered_query query "risk 2021") 5
    = Raise IndexError
  ∧ (∃ built,
       compare_across_years locator_key acme_stale query ["alpha x"] = Ok built
       ∧ dom built = list_to_set (C := gset string) ["alpha x"])
  ∧ compare_across_years locator_key acme_stale query
      ["alpha x"; "risk 2021"; "2022"]
    = Raise IndexError
  ∧ analyze_risks locator_key acme_stale "ACME"
      ["alpha x"; "risk 2021"; "2022"]
    = Raise IndexError.
Proof.
  intros query.
  assert (Forall (λ y, ∃ results,
    hybrid_search locator_key acme_stale (filtered_query query y) 5
    = Ok results) ["alpha x"]) as Hpre.
  { apply Forall_cons_2; [|apply Forall_nil_2].
    eexists. vm_compute; reflexivity. }
  assert (hybrid_search locator_key acme_stale
            (filtered_query query "risk 2021") 5
          = Raise IndexError) as Hyr by (vm_compute; reflexivity).
  destruct (compare_across_years_raises locator_key acme_stale query "ACME"
              ["alpha x"] ["2022"] "risk 2021" IndexError Hpre Hyr)
    as (Hbuilt & Hcmp & Hrisks).
  split_and!; [exact Hpre|exact Hyr|exact Hbuilt|exact Hcmp|].
  apply Hrisks. reflexivity.
Defined.

Lemma analyze_risks_by_year_witness :
  ∃ results_by_year,
    compare_across_years locator_key acme
      "What are the key business risks for ACME?" ["2021"; "2022"]
    = Ok results_by_year
    ∧ ∃ risk_analysis,
        analyze_risks locator_key acme "ACME" ["2021"; "2022"] = Ok risk_analysis
        ∧ dom risk_analysis = dom results_by_year.
Proof.
  destruct (compare_across_years locator_key acme
              "What are the key business risks for ACME?" ["2021"; "2022"])
    as [results_by_year|e] eqn:Hcmp.
  - exists results_by_year. split; [reflexivity|].
    destruct (analyze_risks_by_year locator_key acme "ACME" ["2021"; "2022"]
                results_by_year Hcmp) as (risk_analysis & Hra & Hdom & _).
    exists risk_analysis. split; [exact Hra|exact Hdom].
  - exfalso. vm_compute in Hcmp. discriminate Hcmp.
Defined.

Lemma retrieve_sub_queries_pool_witness :
  let cands := λ sq,
    match hybrid_search locator_key acme sq 20 with
    | Ok results => results
    | Raise _ => []
    end in
  Forall (λ sq, hybrid_search locator_key acme sq 20 = Ok (cands sq))
    ["alpha"; "supply chain risk"]
  ∧ ∃ all_results,
      retrieve_loop locator_key acme ["alpha"; "supply chain risk"] []
      = Ok all_results
      ∧ length all_results ≤ 5 * 2.
Proof.
  intros cands.
  assert (Forall (λ sq, hybrid_search locator_key acme sq 20 = Ok (cands sq))
            ["alpha"; "supply chain risk"]) as Hall
    by (repeat constructor; vm_compute; reflexivity).
  split; [exact Hall|].
  destruct (retrieve_sub_queries_pool locator_key acme cands
              ["alpha"; "supply chain risk"] Hall) as (Hloop & Hlen & _).
  eexists. split; [exact Hloop|exact Hlen].
Defined.

Lemma retrieve_sub_queries_raises_witness :
  Forall (λ q, ∃ results,
    hybrid_search locator_key acme_partial q 20 = Ok results) ["alpha"]
  ∧ hybrid_search locator_key acme_partial "omega" 20 = Raise IndexError
  ∧ (∃ pool,
       retrieve_loop locator_key acme_partial ["alpha"] [] = Ok pool
       ∧ length pool = 5
       ∧ retrieve_sub_queries locator_key acme_partial ["alpha"]
         = Ok (take 10 (_deduplicate locator_key pool)))
  ∧ retrieve_sub_queries locator_key acme_partial
      ["alpha"; "omega"; "supply chain risk"]
    = Raise IndexError.
Proof.
  assert (Forall (λ q, ∃ results,
            hybrid_search locator_key acme_partial q 20 = Ok results) ["alpha"])
    as Hpre.
  { apply Forall_cons_2; [|apply Forall_nil_2].
    eexists. vm_compute; reflexivity. }
  assert (hybrid_search locator_key acme_partial "omega" 20 = Raise IndexError)
    as Hsq by (vm_compute; reflexivity).
  destruct (retrieve_sub_queries_raises locator_key acme_partial ["alpha"]
              ["supply chain risk"] "omega" IndexError Hpre Hsq)
    as ((pool & Hpool & Hret) & Hraise).
  split_and!; [exact Hpre|exact Hsq| |exact Hraise].
  exists pool. split_and!; [exact Hpool| |exact Hret].
  assert (Ok pool = retrieve_loop locator_key acme_partial ["alpha"] [])
    as Heq by (by rewrite Hpool).
  vm_compute in Heq. by injection Heq as ->.
Defined.

Lemma execute_plan_results_closed_witness :
  ∃ results,
    execute_plan echo_agents (prompt_plan (λ a, a)) "ACME" = Returned results
    ∧ is_Some (results !! "auditor")
    ∧ "auditor" ∈ known_agents
    ∧ ∃ step, step ∈ prompt_plan (λ a, a) ∧ agent step = "auditor"
              ∧ ∀ dep, dep ∈ dependencies step → is_Some (results !! dep).
Proof.
  eexists. split; [vm_compute; reflexivity|].
  split; [vm_compute; by eexists|].
  eapply (execute_plan_results_closed echo_agents "ACME" (prompt_plan (λ a, a))).
  - vm_compute; reflexivity.
  - vm_compute; by eexists.
Defined.

Lemma execute_plan_never_retries_witness :
  let plan := [ {| agent := "analyst"; task := "synthesize";
                   dependencies := ["sec_researcher"] |};
                {| agent := "sec_researcher"; task := "risks";
                   dependencies := [] |} ] in
  ∃ results,
    execute_plan echo_agents plan "ACME" = Returned results
    ∧ is_Some (results !! "sec_researcher")
    ∧ results !! "analyst" = None.
Proof.
  intros plan. eexists. split; [vm_compute; reflexivity|].
  split; [vm_compute; by eexists|].
  apply (execute_plan_never_retries echo_agents "ACME" plan).
  - intros pre step post Heq Ha.
    destruct pre as [|s0 [|s1 [|s2 pre]]]; simplify_eq/=.
    exists "sec_researcher". split; [left|apply not_elem_of_nil].
  - vm_compute; reflexivity.
Defined.

Lemma execute_plan_KeyError_witness :
  let auditor_first := plan_json [step_json "auditor" []] in
  let prompt := plan_json [step_json "sec_researcher" [];
                           step_json "market_data" [];
                           step_json "analyst" ["sec_researcher"; "market_data"];
                           step_json "auditor" ["analyst"]] in
  decode_plan auditor_first
  = Some [ {| agent := "auditor"; task := "..."; dependencies := [] |} ]
  ∧ Plan.execute_plan echo_plan_agents auditor_first "ACME"
    = Plan.Raised (Plan.KeyError "analyst")
  ∧ decode_plan prompt = Some (prompt_plan (λ _, "..."))
  ∧ (∃ results,
       Plan.execute_plan echo_plan_agents prompt "ACME" = Plan.Returned results)
  ∧ Plan.execute_plan echo_plan_agents (Plan.JObject ∅) "ACME"
    = Plan.Raised (Plan.KeyError "steps")
  ∧ Plan.execute_plan echo_plan_agents
      (plan_json [Plan.JObject {[ "task" := Plan.JString "..." ]}]) "ACME"
    = Plan.Raised (Plan.KeyError "agent")
  ∧ Plan.execute_plan echo_plan_agents
      (plan_json [Plan.JObject {[ "agent" := Plan.JString "auditor" ]}]) "ACME"
    = Plan.Raised (Plan.KeyError "task")
  ∧ Plan.execute_plan echo_plan_agents
      (plan_json [Plan.JObject {[ "agent" := Plan.JString "auditor";
                                  "task" := Plan.JString "..." ]}]) "ACME"
    = Plan.Raised (Plan.KeyError "dependencies")
  ∧ Plan.execute_plan echo_plan_agents
      (plan_json [Plan.JObject {[ "agent" := Plan.JString "analyst";
                                  "task" := Plan.JString "...";
                                  "dependencies" := Plan.JNull ]}]) "ACME"
    = Plan.Raised Plan.TypeError
  ∧ Plan.execute_plan echo_plan_agents (Plan.JArray []) "ACME"
    = Plan.Raised Plan.TypeError.
Proof.
  intros auditor_first prompt.
  assert (decode_plan auditor_first
          = Some [ {| agent := "auditor"; task := "..."; dependencies := [] |} ])
    as Hdec by (vm_compute; reflexivity).
  assert (decode_plan prompt = Some (prompt_plan (λ _, "..."))) as Hprompt
    by (vm_compute; reflexivity).
  destruct (execute_plan_KeyError echo_plan_agents "ACME" auditor_first)
    as (_ & _ & _ & Hshape).
  destruct (Hshape _ Hdec) as (_ & _ & _ & Hraise).
  destruct (execute_plan_KeyError echo_plan_agents "ACME" prompt)
    as (_ & _ & _ & Hshape').
  destruct (Hshape' _ Hprompt) as (_ & _ & Hreturn & _).
  destruct (execute_plan_KeyError echo_plan_agents "ACME" (Plan.JObject ∅))
    as (_ & Hsteps & _).
  destruct (execute_plan_KeyError echo_plan_agents "ACME"
              (plan_json [Plan.JObject {[ "task" := Plan.JString "..." ]}]))
    as (_ & _ & Hagent & _).
  split_and!.
  - exact Hdec.
  - apply (Hraise [] {| agent := "auditor"; task := "..."; dependencies := [] |}
             [] ∅); [reflexivity..| |reflexivity].
    by intros dep ?%elem_of_nil.
  - exact Hprompt.
  - apply Hreturn. intros step Hin Ha. unfold prompt_plan in Hin.
    repeat (apply elem_of_cons in Hin as [->|Hin]; [try discriminate Ha|]).
    + compute_done.
    + by apply elem_of_nil in Hin.
  - by apply (Hsteps ∅).
  - eapply Hagent; [reflexivity|apply lookup_singleton_eq|reflexivity].
  - vm_compute; reflexivity.
  - vm_compute; reflexivity.
  - vm_compute; reflexivity.
  - vm_compute; reflexivity.
Defined.

Lemma execute_plan_in_order_witness :
  Forall (λ step, agent step ∈ known_agents) (prompt_plan (λ a, a))
  ∧ ∃ results,
      execute_plan echo_agents (prompt_plan (λ a, a)) "ACME" = Returned results
      ∧ ∀ a, is_Some (results !! a) ↔ a ∈ agent <$> prompt_plan (λ a, a).
Proof.
  assert (Forall (λ step, agent step ∈ known_agents) (prompt_plan (λ a, a)))
    as Hknown by (repeat constructor; compute_done).
  split; [exact Hknown|].
  apply (execute_plan_in_order echo_agents "ACME" (prompt_plan (λ a, a)) Hknown).
  intros pre step post Heq. unfold prompt_plan in Heq.
  destruct pre as [|s0 [|s1 [|s2 [|s3 [|s4 pre]]]]]; simplify_eq/=;
    (split;
     [ intros dep Hdep;
       repeat (apply elem_of_cons in Hdep as [->|Hdep]; [compute_done|]);
       by apply elem_of_nil in Hdep
     | intros Ha; first [discriminate Ha|compute_done] ]).
Defined.

Lemma chat_exit_stops_witness :
  Chat.lower "Exit" = "exit"
  ∧ Chat.chat "NVDA"
      [Chat.Typed "price?" (Chat.Reply "100") "t0";
       Chat.Typed "Exit" (Chat.Reply "bye") "t1";
       Chat.Typed "P/E?" (Chat.Reply "30") "t2"] []
    = ([ {| Chat.timestamp := "t0"; Chat.ticker := "NVDA";
            Chat.query := "price?"; Chat.response := "100" |} ],
       [Chat.AssistantHeader; Chat.Assistant "100"; Chat.Goodbye], true).
Proof.
  assert (Chat.lower "Exit" = "exit") as Hexit by reflexivity.
  split; [exact Hexit|].
  destruct (chat_exit_stops "NVDA" [Chat.Typed "price?" (Chat.Reply "100") "t0"]
              [Chat.Typed "P/E?" (Chat.Reply "30") "t2"]
              "Exit" (Chat.Reply "bye") "t1" [] Hexit) as [Heq _].
  cbn [app] in Heq. rewrite Heq. vm_compute. reflexivity.
Defined.
